(** * SaveCommand: the save-side snapshot pipeline of the rdmc "save" command

    A shallow embedding of [src/extensions/COMMANDS/SaveCommand.py]:
    [saveworkerfunction] (identity lookup, identity removal, redaction and
    entry emission), [nested_sort], [add_save_file_header] and the part of
    [run] that assembles the passes and writes the destination file.

    Python objects are JSON-shaped values; a [dict] is an association list in
    insertion order whose keys are unique ([wf_value]).  The records are
    trees, as after JSON decoding: no object is shared between two places, so
    an in-place mutation is the rebuilding of the path to the mutated
    object.  Exceptions are a result type.  What [run] gets from its
    collaborators (the identity convention, the records of each selection,
    the header, the encoder and the destination file) is a parameter. *)

From Stdlib Require Import String Ascii List ZArith Bool Lia Permutation.
Import ListNotations.
Local Open Scope string_scope.
Local Open Scope list_scope.

(** ** Exceptions and the error monad *)

Inductive exn : Type :=
| KeyError
| TypeError
| UnboundLocalError
| ValueError
| iLORisCorruptionError
| InvalidFileFormattingError
| NothingSelectedError.

Inductive result (A : Type) : Type :=
| OK (a : A)
| Raise (e : exn).
Arguments OK {A} a.
Arguments Raise {A} e.

Definition bind {A B : Type} (m : result A) (f : A -> result B) : result B :=
  match m with
  | OK a => f a
  | Raise e => Raise e
  end.

Notation "x <- m ;; k" := (bind m (fun x => k))
  (at level 61, m at next level, right associativity).

(** The error types of the spec's taxonomy that this file can raise. *)
Definition core_error (e : exn) : bool :=
  match e with
  | iLORisCorruptionError | InvalidFileFormattingError | NothingSelectedError => true
  | _ => false
  end.

(** ** Python values *)

Unset Elimination Schemes.
Inductive value : Type :=
| VNone
| VBool (b : bool)
| VNum (n : Z)   (* a number; only its truth value and hashability matter here *)
| VStr (s : string)
| VList (l : list value)
| VDict (d : list (string * value)).
Set Elimination Schemes.

Definition dict : Type := list (string * value).

(** [bool(v)] *)
Definition truthy (v : value) : bool :=
  match v with
  | VNone => false
  | VBool b => b
  | VNum n => negb (n =? 0)%Z
  | VStr s => negb (s =? "")
  | VList l => match l with [] => false | _ => true end
  | VDict d => match d with [] => false | _ => true end
  end.

(** [hash(v)] succeeds: lists and dicts are unhashable. *)
Definition hashable (v : value) : bool :=
  match v with
  | VList _ | VDict _ => false
  | _ => true
  end.

(** ** Dictionaries *)

Fixpoint dict_get (k : string) (d : dict) : option value :=
  match d with
  | [] => None
  | (k', v) :: r => if k =? k' then Some v else dict_get k r
  end.

Definition dict_mem (k : string) (d : dict) : bool :=
  match dict_get k d with Some _ => true | None => false end.

(** [del d[k]] on a dict that holds [k]; keys are unique, so removing the
    bindings of [k] removes the binding. *)
Fixpoint dict_del (k : string) (d : dict) : dict :=
  match d with
  | [] => []
  | (k', v) :: r => if k =? k' then dict_del k r else (k', v) :: dict_del k r
  end.

(** [d[k] = v]: an existing key keeps its position, a new one goes last. *)
Fixpoint dict_set (k : string) (v : value) (d : dict) : dict :=
  match d with
  | [] => [(k, v)]
  | (k', v') :: r => if k =? k' then (k, v) :: r else (k', v') :: dict_set k v r
  end.

Definition keys (d : dict) : list string := map fst d.

Fixpoint nodupb (l : list string) : bool :=
  match l with
  | [] => true
  | k :: r => negb (existsb (String.eqb k) r) && nodupb r
  end.

(** Representation invariant of a Python dict: unique keys, at every depth. *)
Fixpoint wf_value (v : value) : bool :=
  match v with
  | VList l => forallb wf_value l
  | VDict d => nodupb (map fst d) && forallb (fun kv => wf_value (snd kv)) d
  | _ => true
  end.

Definition wf_dict (d : dict) : bool := wf_value (VDict d).

(** ** Item access on arbitrary values *)

(** [v[k]] with a string subscript. *)
Definition getitem (v : value) (k : string) : result value :=
  match v with
  | VDict d => match dict_get k d with Some x => OK x | None => Raise KeyError end
  | _ => Raise TypeError
  end.

(** [del v[k]] with a string subscript; the result is the mutated object. *)
Definition delitem (v : value) (k : string) : result value :=
  match v with
  | VDict d => if dict_mem k d then OK (VDict (dict_del k d)) else Raise KeyError
  | _ => Raise TypeError
  end.

(** [s1 in s2] on strings: substring test. *)
Fixpoint substr (s1 s2 : string) : bool :=
  prefix s1 s2 ||
  match s2 with
  | EmptyString => false
  | String _ r => substr s1 r
  end.

Definition is_str (k : string) (v : value) : bool :=
  match v with VStr s => k =? s | _ => false end.

(** [k in v] for a string [k]. *)
Definition contains (k : string) (v : value) : result bool :=
  match v with
  | VDict d => OK (dict_mem k d)
  | VList l => OK (existsb (is_str k) l)
  | VStr s => OK (substr k s)
  | _ => Raise TypeError
  end.

(** Evaluate [v[k]] and mutate that object in place by [f]; the result is
    [v] after the mutation. *)
Definition update_at (k : string) (f : value -> result value) (v : value)
  : result value :=
  match v with
  | VDict d =>
      match dict_get k d with
      | Some x => x' <- f x ;; OK (VDict (dict_set k x' d))
      | None => Raise KeyError
      end
  | _ => Raise TypeError
  end.

(** The same on the record itself, which is a dict. *)
Definition update_top (k : string) (f : value -> result value) (vals : dict)
  : result dict :=
  match dict_get k vals with
  | Some x => x' <- f x ;; OK (dict_set k x' vals)
  | None => Raise KeyError
  end.

Definition get_top (k : string) (vals : dict) : result value :=
  match dict_get k vals with Some v => OK v | None => Raise KeyError end.

Definition del_top (k : string) (vals : dict) : result dict :=
  if dict_mem k vals then OK (dict_del k vals) else Raise KeyError.

(** Resolve a path of keys through nested mappings. *)
Fixpoint lookup_path (p : list string) (v : value) : option value :=
  match p with
  | [] => Some v
  | k :: p' =>
      match v with
      | VDict d => match dict_get k d with Some x => lookup_path p' x | None => None end
      | _ => None
      end
  end.

(** ** [saveworkerfunction] *)

(** [self.rdmc.app.typepath.defs]: the identity convention of the remote API
    (for Redfish, [hrefstring] is [@odata.id] and [typestring] is
    [@odata.type]). *)
Record defs : Type := { hrefstring : string; typestring : string }.

Definition always_drop : list string :=
  [ "IPv4Addresses"; "IPv6Addresses"; "IPv6AddressPolicyTable"; "MACAddress";
    "StaticNameServers"; "AutoNeg"; "FullDuplex"; "SpeedMbps" ].

Definition drop_if_nonempty : list string :=
  [ "IPv6StaticAddresses"; "IPv6StaticDefaultGateways"; "IPv4StaticAddresses" ].

Definition dns_blocks : list string := [ "IPv4"; "IPv6"; "DHCPv6"; "DHCPv4" ].

Definition dns_fields : list string := [ "DNSServers"; "UseDNSServers" ].

Definition mem_str (k : string) (l : list string) : bool := existsb (String.eqb k) l.

(** *** Identity lookup (lines 152-166) *)

(** [val[hrefstring]] *)
Definition top_identity (d : defs) (val : dict) : result value :=
  get_top (hrefstring d) val.

(** [val["links"]["self"][hrefstring]] *)
Definition nested_identity (d : defs) (val : dict) : result value :=
  links <- get_top "links" val ;;
  self <- getitem links "self" ;;
  getitem self (hrefstring d).

(** The list comprehension [[{ident(val): val} for val in content]]: the
    first failing record decides the exception; the identity becomes a dict
    key, so it has to be hashable. *)
Fixpoint index_by (ident : dict -> result value) (content : list dict)
  : result (list (value * dict)) :=
  match content with
  | [] => OK []
  | val :: rest =>
      path <- ident val ;;
      if hashable path then
        tl <- index_by ident rest ;;
        OK ((path, val) :: tl)
      else Raise TypeError
  end.

Definition locate_identity (d : defs) (content : list dict)
  : result (list (value * dict)) :=
  match index_by (top_identity d) content with
  | Raise KeyError =>
      match index_by (nested_identity d) content with
      | Raise KeyError => Raise iLORisCorruptionError
      | r => r
      end
  | r => r
  end.

(** *** The loop over a record's keys (lines 177-206) *)

Record locals : Type :=
  { typeselector : value; pathselector : value; values : dict }.

Definition with_values (s : locals) (vals : dict) : locals :=
  {| typeselector := typeselector s; pathselector := pathselector s; values := vals |}.

(** lines 178-181 *)
Definition take_type (type_string : string) (path : value) (dictentry : string)
  (s : locals) : result locals :=
  if dictentry =? type_string then
    v <- get_top dictentry (values s) ;;
    vals <- del_top dictentry (values s) ;;
    OK {| typeselector := v; pathselector := path; values := vals |}
  else OK s.

(** lines 182-192 *)
Definition drop_always (dictentry : string) (vals : dict) : result dict :=
  if mem_str dictentry always_drop then del_top dictentry vals else OK vals.

(** lines 193-199 *)
Definition drop_static (dictentry : string) (vals : dict) : result dict :=
  if mem_str dictentry drop_if_nonempty then
    v <- get_top dictentry vals ;;
    if truthy v then del_top dictentry vals else OK vals
  else OK vals.

(** [del values["Oem"]["Hpe"][dictentry][field]] *)
Definition del_mirror (dictentry field : string) (vals : dict) : result dict :=
  update_top "Oem"
    (update_at "Hpe" (update_at dictentry (fun m => delitem m field))) vals.

(** lines 201-203, and 204-206 with the other field *)
Definition scrub_dns (dictentry field : string) (vals : dict) : result dict :=
  blk <- get_top dictentry vals ;;
  c <- contains field blk ;;
  if c then
    vals1 <- update_top dictentry (fun b => delitem b field) vals ;;
    del_mirror dictentry field vals1
  else OK vals.

(** lines 200-206 *)
Definition drop_dns (dictentry : string) (vals : dict) : result dict :=
  if mem_str dictentry dns_blocks then
    vals1 <- scrub_dns dictentry "DNSServers" vals ;;
    scrub_dns dictentry "UseDNSServers" vals1
  else OK vals.

(** One iteration of [for dictentry in list(values.keys())]. *)
Definition process_entry (type_string : string) (path : value) (dictentry : string)
  (s : locals) : result locals :=
  s1 <- take_type type_string path dictentry s ;;
  v2 <- drop_always dictentry (values s1) ;;
  v3 <- drop_static dictentry v2 ;;
  v4 <- drop_dns dictentry v3 ;;
  OK (with_values s1 v4).

Fixpoint process_keys (type_string : string) (path : value) (ks : list string)
  (s : locals) : result locals :=
  match ks with
  | [] => OK s
  | dictentry :: rest =>
      s' <- process_entry type_string path dictentry s ;;
      process_keys type_string path rest s'
  end.

(** Lines 172-206 for one record: identity removal and redaction, over a
    snapshot of the record's keys. *)
Definition redact (type_string : string) (path : value) (vals : dict)
  : result locals :=
  process_keys type_string path (keys vals)
    {| typeselector := VNone; pathselector := VNone; values := vals |}.

(** *** Emission (lines 208-218) *)

(** [{typeselector: {pathselector: values}}] *)
Record entry : Type := { e_type : value; e_path : value; e_props : dict }.

(** [tempcontents] is [None] while the local variable is unbound. *)
Definition emit (s : locals) (tempcontents : option entry) (templist : list entry)
  : result (option entry * list entry) :=
  tc <- (match values s with
         | _ :: _ =>
             if truthy (typeselector s) && truthy (pathselector s) then
               if hashable (typeselector s) then
                 OK (Some {| e_type := typeselector s;
                             e_path := pathselector s;
                             e_props := values s |})
               else Raise TypeError
             else Raise InvalidFileFormattingError
         | [] => OK tempcontents
         end) ;;
  match tc with
  | Some e => OK (tc, templist ++ [e])
  | None => Raise UnboundLocalError
  end.

(** [for content in contents] (lines 171-218) *)
Fixpoint process_records (type_string : string) (contents : list (value * dict))
  (tempcontents : option entry) (templist : list entry) : result (list entry) :=
  match contents with
  | [] => OK templist
  | (path, vals) :: rest =>
      s <- redact type_string path vals ;;
      st <- emit s tempcontents templist ;;
      process_records type_string rest (fst st) (snd st)
  end.

(** [content] is what [getprops] returned: one property mapping per
    selected instance, each its own object. *)
Definition saveworkerfunction (d : defs) (content : list dict)
  : result (list entry) :=
  contents <- locate_identity d content ;;
  process_records (typestring d) contents None [].

(** ** [nested_sort] *)

(** [sorted(items, key=lambda x: x[0])]: a stable sort on the keys, which
    compare by code point.  What a stable sort returns does not depend on
    the algorithm; this one inserts from the right, an item going before the
    items whose key is not smaller. *)
Fixpoint insert_item (kv : string * value) (l : dict) : dict :=
  match l with
  | [] => [kv]
  | h :: t => if (fst kv <=? fst h) then kv :: l else h :: insert_item kv t
  end.

Fixpoint sorted_by_key (l : dict) : dict :=
  match l with
  | [] => []
  | h :: t => insert_item h (sorted_by_key t)
  end.

(** [nested_sort(value) if isinstance(value, dict) else value] *)
Fixpoint sort_value (v : value) : value :=
  match v with
  | VDict d => VDict (sorted_by_key (map (fun kv => (fst kv, sort_value (snd kv))) d))
  | _ => v
  end.

Definition nested_sort (data : dict) : dict :=
  sorted_by_key (map (fun kv => (fst kv, sort_value (snd kv))) data).

(** ** Assembly and output (lines 107-136 of [run]) *)

Inductive item : Type :=
| Header (h : dict)
| Item (e : entry).

Definition add_save_file_header (headers : dict) (contents : list entry) : list item :=
  [Header headers] ++ map Item contents.

(** Lines 107-120 once every pass has returned: [contents] is the primary
    pass extended by each multisave pass in turn. *)
Definition assemble (headers : dict) (primary : list entry)
  (multisave : list (list entry)) : result (list item) :=
  let contents := fold_left (fun acc p => acc ++ p) multisave primary in
  match contents with
  | [] => Raise NothingSelectedError
  | _ => OK (add_save_file_header headers contents)
  end.

(** The passes themselves: each one is [saveworkerfunction] on the records
    of the current selection; the first exception ends the command. *)
Fixpoint run_passes (d : defs) (batches : list (list dict))
  : result (list (list entry)) :=
  match batches with
  | [] => OK []
  | b :: rest =>
      p <- saveworkerfunction d b ;;
      ps <- run_passes d rest ;;
      OK (p :: ps)
  end.

(** The destination file: [None] while it does not exist, else its content. *)
Definition file : Type := option string.

(** [open(self.filename, "w")] (or ["wb"]) creates or truncates the file. *)
Definition open_w (f : file) : file := Some "".

Definition write (data : string) (f : file) : file :=
  Some (String.append (match f with Some old => old | None => "" end) data).

(** Lines 107-120: extraction passes and assembly. *)
Definition collect (d : defs) (headers : dict) (primary : list dict)
  (multisave : list (list dict)) : result (list item) :=
  first <- saveworkerfunction d primary ;;
  others <- run_passes d multisave ;;
  assemble headers first others.

(** Lines 107-136: [encode] is [json.dumps], followed by
    [Encryption().encrypt_file] when a key is given; it is evaluated inside
    the [with open(...)] block, as the argument of [outfile.write]. *)
Definition run (d : defs) (headers : dict) (primary : list dict)
  (multisave : list (list dict)) (encode : list item -> result string)
  (dest : file) : result unit * file :=
  match collect d headers primary multisave with
  | Raise e => (Raise e, dest)
  | OK contents =>
      let outfile := open_w dest in
      match encode contents with
      | Raise e => (Raise e, outfile)
      | OK data => (OK tt, write data outfile)
      end
  end.

(** * Vocabulary of the properties *)

(** [isinstance(v, dict)] *)
Definition is_dict (v : value) : bool :=
  match v with VDict _ => true | _ => false end.

(** [v'] is [v] after deletions of keys at some depths: a path that
    resolves in [v'] resolves in [v], to a mapping exactly when it did. *)
Definition shrinks (v' v : value) : Prop :=
  forall p x', lookup_path p v' = Some x' ->
    exists x, lookup_path p v = Some x /\ is_dict x' = is_dict x.

(** What class 2 leaves of a binding. *)
Definition keep_if_falsy (o : option value) : option value :=
  match o with
  | Some v => if truthy v then None else Some v
  | None => None
  end.

(** Where the vendor extension mirrors a sub-field of a protocol block. *)
Definition mirror_path (block field : string) : list string :=
  ["Oem"; "Hpe"; block; field].

(** The places the loop subscripts: protocol blocks, [Oem], [Oem.Hpe] and
    the mirrors. *)
Definition shape_paths : list (list string) :=
  map (fun b => [b]) dns_blocks ++
  [["Oem"]; ["Oem"; "Hpe"]] ++
  map (fun b => ["Oem"; "Hpe"; b]) dns_blocks.

(** A place that holds a mapping or nothing. *)
Definition mapping_or_absent (o : option value) : bool :=
  match o with Some v => is_dict v | None => true end.

(** Every one of these places holds a mapping, where it exists. *)
Definition mapping_shaped (vals : dict) : bool :=
  forallb (fun p => mapping_or_absent (lookup_path p (VDict vals))) shape_paths.

(** The exceptions of a failed subscript or membership test. *)
Definition lookup_error (e : exn) : Prop := e = KeyError \/ e = TypeError.

(** A binding that the loop would leave as it is. *)
Definition settled (type_string k : string) (v : value) : Prop :=
  k <> type_string /\
  mem_str k always_drop = false /\
  (mem_str k drop_if_nonempty = true -> truthy v = false) /\
  (mem_str k dns_blocks = true ->
     contains "DNSServers" v = OK false /\ contains "UseDNSServers" v = OK false).

(** The binding of [k], if there is one, is settled. *)
Definition settled_at (type_string k : string) (vals : dict) : Prop :=
  forall v, dict_get k vals = Some v -> settled type_string k v.

(** A field the loop has no rule for. *)
Definition plain_field (k : string) : bool :=
  negb (mem_str k always_drop || mem_str k drop_if_nonempty ||
        mem_str k dns_blocks || (k =? "Oem")).

(** Every protocol block of the record is a mapping, and each DNS sub-field
    it holds is held by its mirror too. *)
Definition mirrored_at (b : string) (vals : dict) : Prop :=
  mem_str b dns_blocks = true ->
  forall v, dict_get b vals = Some v ->
    exists blk, v = VDict blk /\
      forall f, In f dns_fields -> dict_mem f blk = true ->
        lookup_path (mirror_path b f) (VDict vals) <> None.

Definition mirrored (vals : dict) : Prop := forall b, mirrored_at b vals.

(** The loop cannot remove the field that holds a record's path: the path
    field is not the type field and has no rule, and the type field is not
    [links].  So it is with [@odata.id] and [@odata.type], and with [href]
    and [Type]. *)
Definition path_kept (d : defs) : bool :=
  negb (hrefstring d =? typestring d) &&
  plain_field (hrefstring d) &&
  negb (typestring d =? "links").

(** The entry built at line 212 from the locals. *)
Definition entry_of (s : locals) : entry :=
  {| e_type := typeselector s; e_path := pathselector s; e_props := values s |}.

(** The record has no identity under the convention: a key on the way is
    missing. *)
Definition lacks (ident : dict -> result value) (val : dict) : bool :=
  match ident val with Raise KeyError => true | _ => false end.

(** The record has an identity under the convention. *)
Definition located (ident : dict -> result value) (val : dict) : bool :=
  match ident val with OK _ => true | Raise _ => false end.

(** The lookup meets mappings only and a hashable identity, where it gets
    that far. *)
Definition lookup_typed (ident : dict -> result value) (val : dict) : bool :=
  match ident val with
  | OK p => hashable p
  | Raise KeyError => true
  | Raise _ => false
  end.

(** Keys in non-decreasing order. *)
Fixpoint key_sortedb (l : list string) : bool :=
  match l with
  | a :: (b :: _) as t => (a <=? b) && key_sortedb t
  | _ => true
  end.

(** Every mapping reached through mapping values has its keys in order. *)
Fixpoint deep_sorted (v : value) : bool :=
  match v with
  | VDict d => key_sortedb (map fst d) && forallb (fun kv => deep_sorted (snd kv)) d
  | _ => true
  end.

(** Every mapping at any depth, inside sequences too, has its keys in order. *)
Fixpoint all_sorted (v : value) : bool :=
  match v with
  | VDict d => key_sortedb (map fst d) && forallb (fun kv => all_sorted (snd kv)) d
  | VList l => forallb all_sorted l
  | _ => true
  end.

(** The same bindings, entered in another order: at a mapping, and at the
    mappings reached through mapping values. *)
Unset Elimination Schemes.
Inductive reordered : value -> value -> Prop :=
| reordered_same (v : value) : reordered v v
| reordered_dict (d1 d2 d2' : dict) :
    Forall2 (fun a b => fst a = fst b /\ reordered (snd a) (snd b)) d1 d2' ->
    Permutation d2' d2 ->
    reordered (VDict d1) (VDict d2).
Set Elimination Schemes.

(** What the loop of lines 229-231 makes of one binding. *)
Definition sort_binding (kv : string * value) : string * value :=
  (fst kv, sort_value (snd kv)).

(** * Example records *)

(** The Redfish convention. *)
Definition redfish : defs :=
  {| hrefstring := "@odata.id"; typestring := "@odata.type" |}.

(** The spec's scenario record, with its type field. *)
Definition bios_record : dict :=
  [ ("@odata.id", VStr "/redfish/v1/Bios/1");
    ("@odata.type", VStr "Bios.");
    ("AttributeX", VNum 1);
    ("MACAddress", VStr "aa:bb") ].

(** The entry of [bios_record]. *)
Definition bios_entry : entry :=
  {| e_type := VStr "Bios.";
     e_path := VStr "/redfish/v1/Bios/1";
     e_props := [ ("@odata.id", VStr "/redfish/v1/Bios/1"); ("AttributeX", VNum 1) ] |}.

(** A record with its identity under links/self only. *)
Definition legacy_record : dict :=
  [ ("links", VDict [("self", VDict [("@odata.id", VStr "/redfish/v1/Systems/1")])]);
    ("@odata.type", VStr "ComputerSystem.") ].

(** A network interface with static addresses, DNS settings and their
    mirrors, and what the loop makes of it. *)
Definition ethernet_path : value := VStr "/redfish/v1/Managers/1/EthernetInterfaces/1".

Definition ethernet_record : dict :=
  [ ("@odata.id", ethernet_path);
    ("@odata.type", VStr "EthernetInterface.");
    ("MACAddress", VStr "aa:bb");
    ("SpeedMbps", VNum 1000);
    ("IPv4StaticAddresses", VList []);
    ("IPv6StaticAddresses", VList [VDict [("Address", VStr "fe80::1")]]);
    ("IPv4", VDict [("DNSServers", VList [VStr "10.0.0.1"]); ("Enabled", VBool true)]);
    ("DHCPv4", VDict [("UseDNSServers", VBool true); ("Enabled", VBool true)]);
    ("Oem", VDict [("Hpe", VDict
       [ ("IPv4", VDict [("DNSServers", VList [VStr "10.0.0.1"])]);
         ("DHCPv4", VDict [("UseDNSServers", VBool true);
                           ("ClientIdType", VStr "Default")]) ])]);
    ("HostName", VStr "ilo") ].

Definition ethernet_redacted : locals :=
  {| typeselector := VStr "EthernetInterface.";
     pathselector := ethernet_path;
     values :=
       [ ("@odata.id", ethernet_path);
         ("IPv4StaticAddresses", VList []);
         ("IPv4", VDict [("Enabled", VBool true)]);
         ("DHCPv4", VDict [("Enabled", VBool true)]);
         ("Oem", VDict [("Hpe", VDict
            [ ("IPv4", VDict []);
              ("DHCPv4", VDict [("ClientIdType", VStr "Default")]) ])]);
         ("HostName", VStr "ilo") ] |}.

(** A record whose IPv4 block has no mirror: [Oem.Hpe] is null. *)
Definition unmirrored_record : dict :=
  [ ("@odata.id", ethernet_path);
    ("@odata.type", VStr "EthernetInterface.");
    ("IPv4", VDict [("DNSServers", VList [VStr "10.0.0.1"])]);
    ("Oem", VDict [("Hpe", VNone)]) ].

(** The same with no [Oem] at all. *)
Definition oemless_record : dict :=
  [ ("@odata.id", ethernet_path);
    ("@odata.type", VStr "EthernetInterface.");
    ("IPv4", VDict [("DNSServers", VList [VStr "10.0.0.1"])]) ].

(** The convention of the legacy REST API: the path is under links/self. *)
Definition legacy_rest : defs :=
  {| hrefstring := "href"; typestring := "Type" |}.

(** An entry of another type. *)
Definition nic_entry : entry :=
  {| e_type := VStr "EthernetInterface.";
     e_path := VStr "/redfish/v1/Systems/1/EthernetInterfaces/1";
     e_props := [("Name", VStr "eth0")] |}.

(** A mapping held in a sequence, and the same entered in another order. *)
Definition listed_mapping : dict :=
  [ ("b", VNum 1); ("a", VList [VDict [("z", VNum 1); ("c", VNum 2)]]) ].

Definition listed_mapping' : dict :=
  [ ("b", VNum 1); ("a", VList [VDict [("c", VNum 2); ("z", VNum 1)]]) ].

(** Two insertion orders of the same bindings, at two depths. *)
Definition shuffled : dict :=
  [ ("b", VNum 1); ("a", VDict [("z", VNum 1); ("c", VNum 2)]) ].

Definition shuffled' : dict :=
  [ ("a", VDict [("c", VNum 2); ("z", VNum 1)]); ("b", VNum 1) ].

(** * Command-line validation ([run] lines 86-100 and [savevalidation])

    A character is a code point below U+0100. *)

(** What validation returns, or the InvalidCommandLineError it raises. *)
Inductive cmdline (A : Type) : Type :=
| Accepted (a : A)
| InvalidCommandLineError (message : string).
Arguments Accepted {A} a.
Arguments InvalidCommandLineError {A} message.

(** [c.isspace()] *)
Definition isspace (c : ascii) : bool :=
  let n := nat_of_ascii c in
  (Nat.leb 9 n && Nat.leb n 13) || (Nat.leb 28 n && Nat.leb n 32) ||
  Nat.eqb n 133 || Nat.eqb n 160.

Fixpoint lstrip (s : string) : string :=
  match s with
  | EmptyString => EmptyString
  | String c r => if isspace c then lstrip r else s
  end.

Fixpoint rstrip (s : string) : string :=
  match s with
  | EmptyString => EmptyString
  | String c r =>
      match rstrip r with
      | EmptyString => if isspace c then EmptyString else String c EmptyString
      | r' => String c r'
      end
  end.

(** [s.strip()] *)
Definition strip (s : string) : string := rstrip (lstrip s).

(** [s.split(sep)] for a separator of one character. *)
Fixpoint split (sep : ascii) (s : string) : list string :=
  match s with
  | EmptyString => [EmptyString]
  | String c r =>
      if Ascii.eqb c sep then EmptyString :: split sep r
      else match split sep r with
           | h :: t => String c h :: t
           | [] => [String c EmptyString]
           end
  end.

(** [s.replace(c, "")] for one character. *)
Fixpoint remove (c : ascii) (s : string) : string :=
  match s with
  | EmptyString => EmptyString
  | String a r => if Ascii.eqb a c then remove c r else String a (remove c r)
  end.

(** [s[-1]] *)
Fixpoint last_char (s : string) : option ascii :=
  match s with
  | EmptyString => None
  | String c EmptyString => Some c
  | String _ r => last_char r
  end.

(** [s[:-1]] *)
Fixpoint chop (s : string) : string :=
  match s with
  | EmptyString => EmptyString
  | String _ EmptyString => EmptyString
  | String c r => String c (chop r)
  end.

Definition squote : ascii := "039"%char.
Definition dquote : ascii := "034"%char.
Definition equals : ascii := "061"%char.
Definition comma : ascii := "044"%char.
Definition space : ascii := "032"%char.

(** Lines 88-91: a filter that starts and ends with the same quote
    character loses both. *)
Definition unquote (f : string) : string :=
  match f with
  | EmptyString => f
  | String c r =>
      if (match last_char f with Some l => Ascii.eqb c l | None => false end) &&
         (Ascii.eqb c squote || Ascii.eqb c dquote)
      then chop r
      else f
  end.

Definition filter_message : string :=
  "Invalid filter parameter format [filter_attribute]=[filter_value]".

(** Lines 86-100: [options.filter] is [None] or a string; the result is
    the [(sel, val)] pair given to [select], if there is a filter. *)
Definition parse_filter (filter : option string) : cmdline (option (string * string)) :=
  match filter with
  | None | Some EmptyString => Accepted None
  | Some f =>
      match split equals (unquote f) with
      | [sel; val] => Accepted (Some (strip sel, strip val))
      | _ => InvalidCommandLineError filter_message
      end
  end.

(** Lines 244-252 of [savevalidation]: the selector and the further types
    of a multisave option. *)
Definition select_types (multisave : string) (selector : option string)
  : cmdline (option string * list string) :=
  match multisave with
  | EmptyString => Accepted (selector, [])
  | _ =>
      match split comma (remove space (remove squote (remove dquote multisave))) with
      | [] => InvalidCommandLineError "Invalid number of types in multisave option."
      | first :: rest => Accepted (Some first, rest)
      end
  end.

Definition __filename__ : string := "ilorest.json".

(** Lines 257-270 of [savevalidation], which run after the collaborator's
    [login_select_validation] (line 254): [filename] is [options.filename],
    [None] or the list of the -f values; [defaultsavefilename] is the one of
    the configuration, if there is a configuration and it has one. *)
Definition choose_filename (filename : option (list string))
  (defaultsavefilename : option string) : cmdline string :=
  match filename with
  | Some (_ :: _ :: _) =>
      InvalidCommandLineError "Save command doesn't support multiple filenames."
  | Some [f] => Accepted (match f with EmptyString => __filename__ | _ => f end)
  | Some [] | None =>
      Accepted (match defaultsavefilename with
                | Some (String c r) => String c r
                | _ => __filename__
                end)
  end.

(** [sep.join(l)] for a separator of one character. *)
Fixpoint join (sep : ascii) (l : list string) : string :=
  match l with
  | [] => EmptyString
  | [s] => s
  | s :: r => s ++ String sep (join sep r)
  end.

(** [c in s] for a character. *)
Fixpoint has_char (c : ascii) (s : string) : bool :=
  match s with
  | EmptyString => false
  | String a r => Ascii.eqb a c || has_char c r
  end.

(** A type name as [select_types] leaves it: no comma, quote or space. *)
Definition clean_name (s : string) : bool :=
  negb (has_char comma s || has_char space s || has_char squote s || has_char dquote s).

(** * Vocabulary of the further properties *)

(** [v'] is [v] with keys deleted at some depths and nothing rewritten: a
    path that resolves in [v'] resolves in [v]; to the same value if that is
    not a mapping, and to a mapping if it is one. *)
Definition pruned (v' v : value) : Prop :=
  forall p x', lookup_path p v' = Some x' ->
    exists x, lookup_path p v = Some x /\
              is_dict x' = is_dict x /\ (is_dict x' = false -> x' = x).

(** The keys of [v'] are keys of [v], in the order [v] has them. *)
Definition keys_kept (v' v : value) : Prop :=
  exists d' d f, v' = VDict d' /\ v = VDict d /\ keys d' = filter f (keys d).

(** The key survives the loop: it is not the type field, not in the
    always-drop list, and not a static list with a truthy value. *)
Definition survives (type_string : string) (vals : dict) (k : string) : bool :=
  negb (k =? type_string) &&
  negb (mem_str k always_drop) &&
  negb (mem_str k drop_if_nonempty &&
        match dict_get k vals with Some v => truthy v | None => false end).

(** [s.count(c)] for a character. *)
Fixpoint count_char (c : ascii) (s : string) : nat :=
  match s with
  | EmptyString => 0
  | String a r => (if Ascii.eqb a c then 1 else 0) + count_char c r
  end.

(** The string starts with a quote character. *)
Definition starts_with_quote (s : string) : bool :=
  match s with
  | EmptyString => false
  | String c _ => Ascii.eqb c squote || Ascii.eqb c dquote
  end.

(** * Properties *)

(** ** The error monad *)

Lemma bind_OK {A B : Type} (m : result A) (f : A -> result B) (b : B) :
  bind m f = OK b -> exists a, m = OK a /\ f a = OK b.
Proof.
  destruct m as [a | e]; simpl; intros H; [exists a; auto | discriminate].
Qed.

Lemma bind_Raise {A B : Type} (m : result A) (f : A -> result B) (e : exn) :
  bind m f = Raise e -> m = Raise e \/ exists a, m = OK a /\ f a = Raise e.
Proof.
  destruct m as [a | e']; simpl; intros H; [right; exists a; auto | left; congruence].
Qed.

Ltac inv_bind H :=
  let a := fresh "a" in
  let Ha := fresh "Ha" in
  apply bind_OK in H; destruct H as (a & Ha & H).

(** ** Dictionaries *)

Section DictFacts.

Lemma dict_get_del_eq k d : dict_get k (dict_del k d) = None.
Proof.
  induction d as [| [k' v] r IH]; simpl; auto.
  destruct (k =? k') eqn:E; simpl; auto. now rewrite E.
Qed.

Lemma dict_get_del_neq j k d : j <> k -> dict_get j (dict_del k d) = dict_get j d.
Proof.
  intros N. induction d as [| [k' v] r IH]; simpl; auto.
  destruct (k =? k') eqn:E; simpl.
  - apply String.eqb_eq in E. subst k'.
    apply String.eqb_neq in N. now rewrite N.
  - now rewrite IH.
Qed.

Lemma dict_get_set_eq k v d : dict_get k (dict_set k v d) = Some v.
Proof.
  induction d as [| [k' v'] r IH]; simpl.
  - now rewrite String.eqb_refl.
  - destruct (k =? k') eqn:E; simpl.
    + now rewrite String.eqb_refl.
    + now rewrite E.
Qed.

Lemma dict_get_set_neq j k v d : j <> k -> dict_get j (dict_set k v d) = dict_get j d.
Proof.
  intros N. apply String.eqb_neq in N.
  induction d as [| [k' v'] r IH]; simpl.
  - now rewrite N.
  - destruct (k =? k') eqn:E; simpl.
    + apply String.eqb_eq in E. subst k'. now rewrite N.
    + now rewrite IH.
Qed.

Lemma dict_get_keys k d : dict_get k d <> None <-> In k (keys d).
Proof.
  induction d as [| [k' v] r IH]; simpl.
  - split; [congruence | tauto].
  - destruct (k =? k') eqn:E.
    + apply String.eqb_eq in E. subst. split; [auto | congruence].
    + apply String.eqb_neq in E. rewrite IH. split; [auto | intros [H | H]; congruence || auto].
Qed.

Lemma dict_get_None_keys k d : dict_get k d = None <-> ~ In k (keys d).
Proof.
  rewrite <- dict_get_keys. destruct (dict_get k d); split; intros H; try congruence.
  exfalso. apply H. discriminate.
Qed.

Lemma dict_mem_del k d : dict_mem k (dict_del k d) = false.
Proof. unfold dict_mem. now rewrite dict_get_del_eq. Qed.

Lemma dict_mem_del_neq j k d : j <> k -> dict_mem j (dict_del k d) = dict_mem j d.
Proof. intros N. unfold dict_mem. now rewrite dict_get_del_neq. Qed.

Lemma mem_str_In k l : mem_str k l = true <-> In k l.
Proof.
  unfold mem_str. rewrite existsb_exists. split.
  - intros (x & Hx & E). apply String.eqb_eq in E. now subst.
  - intros H. exists k. split; auto. apply String.eqb_refl.
Qed.

End DictFacts.

(** ** Deletions only *)

Section Shrinks.

Lemma shrinks_refl v : shrinks v v.
Proof. intros p x' H. eauto. Qed.

Lemma shrinks_trans v1 v2 v3 : shrinks v3 v2 -> shrinks v2 v1 -> shrinks v3 v1.
Proof.
  intros H32 H21 p x3 H3.
  destruct (H32 p x3 H3) as (x2 & H2 & E2).
  destruct (H21 p x2 H2) as (x1 & H1 & E1).
  exists x1. split; congruence.
Qed.

(** Paths that do not resolve stay unresolved. *)
Lemma shrinks_None v' v p :
  shrinks v' v -> lookup_path p v = None -> lookup_path p v' = None.
Proof.
  intros S H. destruct (lookup_path p v') as [x' |] eqn:E; auto.
  destruct (S p x' E) as (x & Hx & _). congruence.
Qed.

Lemma shrinks_dict_del k d : shrinks (VDict (dict_del k d)) (VDict d).
Proof.
  intros [| k' p] x' H; simpl in *.
  - injection H as <-. eauto.
  - destruct (String.eqb_spec k' k) as [-> | N].
    + rewrite dict_get_del_eq in H. discriminate.
    + rewrite dict_get_del_neq in H by auto.
      destruct (dict_get k' d); [eauto | discriminate].
Qed.

Lemma shrinks_dict_set k x x' d :
  dict_get k d = Some x -> shrinks x' x ->
  shrinks (VDict (dict_set k x' d)) (VDict d).
Proof.
  intros G S [| k' p] y' H; simpl in *.
  - injection H as <-. eauto.
  - destruct (String.eqb_spec k' k) as [-> | N].
    + rewrite dict_get_set_eq in H. rewrite G. auto.
    + rewrite dict_get_set_neq in H by auto.
      destruct (dict_get k' d); [eauto | discriminate].
Qed.

Lemma shrinks_delitem k v v' : delitem v k = OK v' -> shrinks v' v.
Proof.
  destruct v; simpl; try discriminate.
  destruct (dict_mem k d); [| discriminate].
  intros [= <-]. apply shrinks_dict_del.
Qed.

Lemma shrinks_update_at k f v v' :
  (forall x x', f x = OK x' -> shrinks x' x) ->
  update_at k f v = OK v' -> shrinks v' v.
Proof.
  intros Hf. destruct v; simpl; try discriminate.
  destruct (dict_get k d) as [x |] eqn:G; [| discriminate].
  intros H. inv_bind H. injection H as <-.
  eapply shrinks_dict_set; eauto.
Qed.

Lemma shrinks_update_top k f vals vals' :
  (forall x x', f x = OK x' -> shrinks x' x) ->
  update_top k f vals = OK vals' -> shrinks (VDict vals') (VDict vals).
Proof.
  intros Hf. unfold update_top.
  destruct (dict_get k vals) as [x |] eqn:G; [| discriminate].
  intros H. inv_bind H. injection H as <-.
  eapply shrinks_dict_set; eauto.
Qed.

Lemma shrinks_absent k vals' vals :
  shrinks (VDict vals') (VDict vals) ->
  dict_get k vals = None -> dict_get k vals' = None.
Proof.
  intros S G. pose proof (shrinks_None _ _ [k] S) as N. simpl in N.
  rewrite G in N. specialize (N eq_refl).
  destruct (dict_get k vals'); [discriminate | reflexivity].
Qed.

End Shrinks.

(** ** One iteration of the key loop: what it can touch *)

Section Steps.

Variable type_string : string.
Variable path : value.

Lemma del_top_OK k vals vals' :
  del_top k vals = OK vals' -> dict_get k vals <> None /\ vals' = dict_del k vals.
Proof.
  unfold del_top, dict_mem. destruct (dict_get k vals); [| discriminate].
  intros [= <-]. split; [discriminate | reflexivity].
Qed.

Lemma get_top_OK k vals v : get_top k vals = OK v <-> dict_get k vals = Some v.
Proof.
  unfold get_top. destruct (dict_get k vals); split; congruence.
Qed.

Lemma update_top_OK k f vals vals' :
  update_top k f vals = OK vals' ->
  exists x x', dict_get k vals = Some x /\ f x = OK x' /\ vals' = dict_set k x' vals.
Proof.
  unfold update_top. destruct (dict_get k vals) as [x |]; [| discriminate].
  intros H. inv_bind H. injection H as <-. eauto.
Qed.

Lemma update_at_OK k f v v' :
  update_at k f v = OK v' ->
  exists d x x', v = VDict d /\ dict_get k d = Some x /\ f x = OK x' /\
                 v' = VDict (dict_set k x' d).
Proof.
  destruct v; simpl; try discriminate.
  destruct (dict_get k d) as [x |] eqn:G; [| discriminate].
  intros H. inv_bind H. injection H as <-. exists d, x, a. auto.
Qed.

Lemma delitem_OK k v v' :
  delitem v k = OK v' ->
  exists d, v = VDict d /\ dict_get k d <> None /\ v' = VDict (dict_del k d).
Proof.
  destruct v; simpl; try discriminate. unfold dict_mem.
  destruct (dict_get k d) eqn:G; [| discriminate].
  intros [= <-]. exists d. rewrite G. repeat split; congruence.
Qed.

(** *** Deletions only *)

Lemma take_type_shrinks k s s' :
  take_type type_string path k s = OK s' ->
  shrinks (VDict (values s')) (VDict (values s)).
Proof.
  unfold take_type. destruct (k =? type_string).
  - intros H. inv_bind H. inv_bind H. injection H as <-. simpl.
    apply del_top_OK in Ha0 as [_ ->]. apply shrinks_dict_del.
  - intros [= <-]. apply shrinks_refl.
Qed.

Lemma drop_always_shrinks k vals vals' :
  drop_always k vals = OK vals' -> shrinks (VDict vals') (VDict vals).
Proof.
  unfold drop_always. destruct (mem_str k always_drop).
  - intros H. apply del_top_OK in H as [_ ->]. apply shrinks_dict_del.
  - intros [= <-]. apply shrinks_refl.
Qed.

Lemma drop_static_shrinks k vals vals' :
  drop_static k vals = OK vals' -> shrinks (VDict vals') (VDict vals).
Proof.
  unfold drop_static. destruct (mem_str k drop_if_nonempty).
  - intros H. inv_bind H. destruct (truthy a).
    + apply del_top_OK in H as [_ ->]. apply shrinks_dict_del.
    + injection H as <-. apply shrinks_refl.
  - intros [= <-]. apply shrinks_refl.
Qed.

Lemma del_mirror_shrinks k field vals vals' :
  del_mirror k field vals = OK vals' -> shrinks (VDict vals') (VDict vals).
Proof.
  unfold del_mirror. apply shrinks_update_top.
  intros x x'. apply shrinks_update_at.
  intros y y'. apply shrinks_update_at.
  intros z z'. apply shrinks_delitem.
Qed.

Lemma scrub_dns_shrinks k field vals vals' :
  scrub_dns k field vals = OK vals' -> shrinks (VDict vals') (VDict vals).
Proof.
  unfold scrub_dns. intros H. inv_bind H. inv_bind H.
  destruct a0.
  - inv_bind H. eapply shrinks_trans.
    + eapply del_mirror_shrinks; eauto.
    + eapply shrinks_update_top; [| eauto].
      intros x x'. apply shrinks_delitem.
  - injection H as <-. apply shrinks_refl.
Qed.

Lemma drop_dns_shrinks k vals vals' :
  drop_dns k vals = OK vals' -> shrinks (VDict vals') (VDict vals).
Proof.
  unfold drop_dns. destruct (mem_str k dns_blocks).
  - intros H. inv_bind H.
    eapply shrinks_trans; eapply scrub_dns_shrinks; eauto.
  - intros [= <-]. apply shrinks_refl.
Qed.

Lemma process_entry_shrinks k s s' :
  process_entry type_string path k s = OK s' ->
  shrinks (VDict (values s')) (VDict (values s)).
Proof.
  unfold process_entry. intros H.
  inv_bind H. inv_bind H. inv_bind H. inv_bind H. injection H as <-. simpl.
  eapply shrinks_trans; [eapply drop_dns_shrinks; eauto |].
  eapply shrinks_trans; [eapply drop_static_shrinks; eauto |].
  eapply shrinks_trans; [eapply drop_always_shrinks; eauto |].
  eapply take_type_shrinks; eauto.
Qed.

Lemma process_keys_shrinks ks s s' :
  process_keys type_string path ks s = OK s' ->
  shrinks (VDict (values s')) (VDict (values s)).
Proof.
  revert s. induction ks as [| k ks IH]; simpl; intros s H.
  - injection H as <-. apply shrinks_refl.
  - inv_bind H. eapply shrinks_trans; [eapply IH; eauto |].
    eapply process_entry_shrinks; eauto.
Qed.

(** *** Frame: an iteration touches its own key and [Oem] only *)

Lemma take_type_frame j k s s' :
  take_type type_string path k s = OK s' -> j <> k ->
  dict_get j (values s') = dict_get j (values s).
Proof.
  unfold take_type. destruct (k =? type_string).
  - intros H N. inv_bind H. inv_bind H. injection H as <-. simpl.
    apply del_top_OK in Ha0 as [_ ->]. now apply dict_get_del_neq.
  - now intros [= <-].
Qed.

Lemma drop_always_frame j k vals vals' :
  drop_always k vals = OK vals' -> j <> k -> dict_get j vals' = dict_get j vals.
Proof.
  unfold drop_always. destruct (mem_str k always_drop).
  - intros H N. apply del_top_OK in H as [_ ->]. now apply dict_get_del_neq.
  - now intros [= <-].
Qed.

Lemma drop_static_frame j k vals vals' :
  drop_static k vals = OK vals' -> j <> k -> dict_get j vals' = dict_get j vals.
Proof.
  unfold drop_static. destruct (mem_str k drop_if_nonempty).
  - intros H N. inv_bind H. destruct (truthy a).
    + apply del_top_OK in H as [_ ->]. now apply dict_get_del_neq.
    + now injection H as <-.
  - now intros [= <-].
Qed.

Lemma del_mirror_frame j k field vals vals' :
  del_mirror k field vals = OK vals' -> j <> "Oem" ->
  dict_get j vals' = dict_get j vals.
Proof.
  unfold del_mirror. intros H N.
  apply update_top_OK in H as (x & x' & _ & _ & ->).
  now apply dict_get_set_neq.
Qed.

Lemma scrub_dns_frame j k field vals vals' :
  scrub_dns k field vals = OK vals' -> j <> k -> j <> "Oem" ->
  dict_get j vals' = dict_get j vals.
Proof.
  unfold scrub_dns. intros H N1 N2. inv_bind H. inv_bind H.
  destruct a0.
  - inv_bind H. erewrite del_mirror_frame by eauto.
    apply update_top_OK in Ha1 as (x & x' & _ & _ & ->).
    now apply dict_get_set_neq.
  - now injection H as <-.
Qed.

Lemma drop_dns_frame j k vals vals' :
  drop_dns k vals = OK vals' -> j <> k -> j <> "Oem" ->
  dict_get j vals' = dict_get j vals.
Proof.
  unfold drop_dns. destruct (mem_str k dns_blocks).
  - intros H N1 N2. inv_bind H.
    erewrite scrub_dns_frame by eauto. eapply scrub_dns_frame; eauto.
  - now intros [= <-].
Qed.

Lemma process_entry_frame j k s s' :
  process_entry type_string path k s = OK s' -> j <> k -> j <> "Oem" ->
  dict_get j (values s') = dict_get j (values s).
Proof.
  unfold process_entry. intros H N1 N2.
  inv_bind H. inv_bind H. inv_bind H. inv_bind H. injection H as <-. simpl.
  erewrite drop_dns_frame by eauto.
  erewrite drop_static_frame by eauto.
  erewrite drop_always_frame by eauto.
  eapply take_type_frame; eauto.
Qed.

Lemma process_keys_frame j ks s s' :
  process_keys type_string path ks s = OK s' -> ~ In j ks -> j <> "Oem" ->
  dict_get j (values s') = dict_get j (values s).
Proof.
  revert s. induction ks as [| k ks IH]; simpl; intros s H N1 N2.
  - now injection H as <-.
  - inv_bind H. erewrite IH by eauto.
    eapply process_entry_frame; eauto.
Qed.

End Steps.

(** ** The three field lists are pairwise disjoint and do not name [Oem] *)

Ltac cases_of_mem H :=
  apply mem_str_In in H; simpl in H;
  repeat (destruct H as [H | H]; [subst |]); [.. | contradiction].

Section Lists.

Lemma always_not_static k :
  mem_str k always_drop = true -> mem_str k drop_if_nonempty = false.
Proof. intros H. cases_of_mem H; reflexivity. Qed.

Lemma always_not_block k :
  mem_str k always_drop = true -> mem_str k dns_blocks = false.
Proof. intros H. cases_of_mem H; reflexivity. Qed.

Lemma static_not_always k :
  mem_str k drop_if_nonempty = true -> mem_str k always_drop = false.
Proof. intros H. cases_of_mem H; reflexivity. Qed.

Lemma static_not_block k :
  mem_str k drop_if_nonempty = true -> mem_str k dns_blocks = false.
Proof. intros H. cases_of_mem H; reflexivity. Qed.

Lemma block_not_always k :
  mem_str k dns_blocks = true -> mem_str k always_drop = false.
Proof. intros H. cases_of_mem H; reflexivity. Qed.

Lemma block_not_static k :
  mem_str k dns_blocks = true -> mem_str k drop_if_nonempty = false.
Proof. intros H. cases_of_mem H; reflexivity. Qed.

Lemma static_not_Oem k : mem_str k drop_if_nonempty = true -> k <> "Oem".
Proof. intros H. cases_of_mem H; discriminate. Qed.

Lemma block_not_Oem k : mem_str k dns_blocks = true -> k <> "Oem".
Proof. intros H. cases_of_mem H; discriminate. Qed.

Lemma nodupb_cons k ks :
  nodupb (k :: ks) = true -> ~ In k ks /\ nodupb ks = true.
Proof.
  simpl. intros H. apply andb_true_iff in H as [H1 H2]. split; auto.
  intros HIn. apply mem_str_In in HIn. unfold mem_str in HIn.
  rewrite HIn in H1. discriminate.
Qed.

End Lists.

(** ** Redaction classes 1 and 2 (lines 182-199) *)

Section TopLevelRedaction.

Variable type_string : string.
Variable path : value.

Lemma process_entry_always_self k s s' :
  process_entry type_string path k s = OK s' ->
  mem_str k always_drop = true ->
  dict_get k (values s') = None.
Proof.
  unfold process_entry. intros H M.
  inv_bind H. inv_bind H. inv_bind H. inv_bind H. injection H as <-. simpl.
  eapply shrinks_absent; [eapply drop_dns_shrinks; eauto |].
  eapply shrinks_absent; [eapply drop_static_shrinks; eauto |].
  unfold drop_always in Ha0. rewrite M in Ha0.
  apply del_top_OK in Ha0 as [_ ->]. apply dict_get_del_eq.
Qed.

Lemma process_keys_always k ks s s' :
  process_keys type_string path ks s = OK s' ->
  mem_str k always_drop = true ->
  In k ks \/ dict_get k (values s) = None ->
  dict_get k (values s') = None.
Proof.
  revert s. induction ks as [| k0 ks IH]; simpl; intros s H M D.
  - injection H as <-. destruct D as [[] | D]; exact D.
  - inv_bind H. apply (IH a); auto.
    destruct (string_dec k0 k) as [-> | N].
    + right. eapply process_entry_always_self; eauto.
    + destruct D as [[E | HIn] | D]; [congruence | now left | right].
      eapply shrinks_absent; [eapply process_entry_shrinks; eauto | exact D].
Qed.

Lemma process_entry_static_self k s s' :
  process_entry type_string path k s = OK s' ->
  mem_str k drop_if_nonempty = true ->
  dict_get k (values s') = keep_if_falsy (dict_get k (values s)).
Proof.
  unfold process_entry. intros H M.
  inv_bind H. inv_bind H. inv_bind H. inv_bind H. injection H as <-. simpl.
  unfold drop_dns in Ha2. rewrite (static_not_block _ M) in Ha2.
  injection Ha2 as <-.
  unfold drop_always in Ha0. rewrite (static_not_always _ M) in Ha0.
  injection Ha0 as <-.
  unfold drop_static in Ha1. rewrite M in Ha1.
  apply bind_OK in Ha1 as (v & Hv & Hd). apply get_top_OK in Hv.
  unfold take_type in Ha. destruct (k =? type_string).
  - apply bind_OK in Ha as (v0 & _ & Ha). apply bind_OK in Ha as (d0 & Hd0 & Ha).
    injection Ha as <-. simpl in *.
    apply del_top_OK in Hd0 as [_ ->].
    rewrite dict_get_del_eq in Hv. discriminate.
  - injection Ha as <-. rewrite Hv. simpl.
    destruct (truthy v).
    + apply del_top_OK in Hd as [_ ->]. apply dict_get_del_eq.
    + now injection Hd as <-.
Qed.

Lemma process_keys_static k ks s s' :
  nodupb ks = true ->
  process_keys type_string path ks s = OK s' ->
  mem_str k drop_if_nonempty = true ->
  dict_get k (values s') =
    if mem_str k ks then keep_if_falsy (dict_get k (values s))
    else dict_get k (values s).
Proof.
  revert s. induction ks as [| k0 ks IH]; intros s ND H M.
  - simpl in H. now injection H as <-.
  - apply nodupb_cons in ND as [NI ND]. simpl in H. inv_bind H.
    change (mem_str k (k0 :: ks)) with ((k =? k0) || mem_str k ks).
    destruct (String.eqb_spec k k0) as [-> | N]; simpl.
    + erewrite process_keys_frame; eauto using static_not_Oem.
      eapply process_entry_static_self; eauto.
    + rewrite (IH a ND H M).
      erewrite process_entry_frame; eauto using static_not_Oem.
Qed.

End TopLevelRedaction.

Lemma mem_str_keys k (d : dict) :
  mem_str k (keys d) = match dict_get k d with Some _ => true | None => false end.
Proof.
  induction d as [| [k' v] r IH]; simpl; auto.
  change (mem_str k (k' :: keys r)) with ((k =? k') || mem_str k (keys r)).
  destruct (k =? k'); simpl; auto.
Qed.

(** C4.  Whenever the pass over a record completes, no field of the
    always-drop list is left at top level, and each static
    address-assignment field is left exactly when it was present with a
    falsy value: a non-empty list is deleted, an empty list is preserved. *)
Theorem redaction_drops_network_state :
  forall (type_string : string) (path : value) (vals : dict) (s' : locals),
    nodupb (keys vals) = true ->
    redact type_string path vals = OK s' ->
    (forall k, In k always_drop -> dict_get k (values s') = None) /\
    (forall k, In k drop_if_nonempty ->
       dict_get k (values s') = keep_if_falsy (dict_get k vals)) /\
    (forall k l, In k drop_if_nonempty -> dict_get k vals = Some (VList l) ->
       (dict_get k (values s') = None <-> l <> []) /\
       (l = [] -> dict_get k (values s') = Some (VList []))).
Proof.
  intros ts path vals s' ND H. unfold redact in H.
  assert (S : forall k, In k drop_if_nonempty ->
            dict_get k (values s') = keep_if_falsy (dict_get k vals)).
  { intros k Hk. apply mem_str_In in Hk.
    rewrite (process_keys_static _ _ k _ _ _ ND H Hk). simpl.
    rewrite mem_str_keys. now destruct (dict_get k vals). }
  split; [| split; [exact S |]].
  - intros k Hk. apply mem_str_In in Hk.
    eapply process_keys_always; eauto. simpl.
    destruct (dict_get k vals) eqn:G; [left | now right].
    apply dict_get_keys. congruence.
  - intros k l Hk G. rewrite (S k Hk), G. simpl.
    destruct l; simpl; (split; [split |]); intros; congruence.
Qed.

(** ** Redaction class 3 (lines 200-206) *)

Section NestedRedaction.

Variable type_string : string.
Variable path : value.

(** The mirror deletion succeeds only where the mirror holds the field,
    and then removes it. *)
Lemma del_mirror_OK b f vals vals' :
  del_mirror b f vals = OK vals' ->
  lookup_path (mirror_path b f) (VDict vals) <> None /\
  lookup_path (mirror_path b f) (VDict vals') = None.
Proof.
  unfold del_mirror. intros H.
  apply update_top_OK in H as (oem & oem' & G1 & H & ->).
  apply update_at_OK in H as (od & hpe & hpe' & -> & G2 & H & ->).
  apply update_at_OK in H as (hd & m & m' & -> & G3 & H & ->).
  apply delitem_OK in H as (md & -> & G4 & ->).
  unfold mirror_path. simpl. rewrite G1, G2, G3.
  rewrite !dict_get_set_eq, dict_get_del_eq.
  split; [| reflexivity]. now destruct (dict_get f md).
Qed.

Lemma scrub_dns_effect b f vals vals' blk :
  scrub_dns b f vals = OK vals' ->
  dict_get b vals = Some (VDict blk) ->
  b <> "Oem" ->
  if dict_mem f blk then
    dict_get b vals' = Some (VDict (dict_del f blk)) /\
    lookup_path (mirror_path b f) (VDict vals) <> None /\
    lookup_path (mirror_path b f) (VDict vals') = None
  else vals' = vals.
Proof.
  unfold scrub_dns. intros H G N.
  apply bind_OK in H as (v & Hv & H). apply get_top_OK in Hv.
  rewrite G in Hv. injection Hv as <-.
  simpl in H. destruct (dict_mem f blk) eqn:M.
  - apply bind_OK in H as (vals1 & H1 & H).
    apply update_top_OK in H1 as (x & x' & Gx & Hx & ->).
    rewrite G in Gx. injection Gx as <-. simpl in Hx. rewrite M in Hx.
    injection Hx as <-.
    pose proof (del_mirror_frame b _ _ _ _ H N) as F.
    rewrite dict_get_set_eq in F.
    apply del_mirror_OK in H as [P1 P2].
    repeat split; auto.
    intros A. apply P1. revert A. unfold mirror_path. simpl.
    rewrite (dict_get_set_neq "Oem" b) by congruence.
    destruct (dict_get "Oem" vals) as [[| | | | | od] |]; auto.
  - now injection H as <-.
Qed.

Lemma dns_field_cases f :
  In f dns_fields -> f = "DNSServers" \/ f = "UseDNSServers".
Proof. simpl. intuition. Qed.

Lemma process_entry_block_self b f s s' blk :
  process_entry type_string path b s = OK s' ->
  mem_str b dns_blocks = true ->
  In f dns_fields ->
  dict_get b (values s) = Some (VDict blk) ->
  dict_mem f blk = true ->
  (exists blk', dict_get b (values s') = Some (VDict blk') /\ dict_get f blk' = None) /\
  lookup_path (mirror_path b f) (VDict (values s)) <> None /\
  lookup_path (mirror_path b f) (VDict (values s')) = None.
Proof.
  unfold process_entry. intros H M Hf G Mf.
  pose proof (block_not_Oem _ M) as NO.
  apply bind_OK in H as (s1 & H1 & H).
  apply bind_OK in H as (v2 & H2 & H).
  apply bind_OK in H as (v3 & H3 & H).
  apply bind_OK in H as (v4 & H4 & H). injection H as <-.
  cbn [values with_values].
  unfold drop_always in H2. rewrite (block_not_always _ M) in H2. injection H2 as <-.
  unfold drop_static in H3. rewrite (block_not_static _ M) in H3. injection H3 as <-.
  unfold drop_dns in H4. rewrite M in H4.
  apply bind_OK in H4 as (w & Hw1 & Hw2).
  assert (E : s1 = s).
  { unfold take_type in H1. destruct (b =? type_string); [| congruence].
    apply bind_OK in H1 as (v0 & _ & H1). apply bind_OK in H1 as (d0 & Hd0 & H1).
    injection H1 as <-. simpl in *. apply del_top_OK in Hd0 as [_ ->].
    unfold scrub_dns in Hw1. apply bind_OK in Hw1 as (x & Hx & _).
    apply get_top_OK in Hx. rewrite dict_get_del_eq in Hx. discriminate. }
  subst s1.
  pose proof (scrub_dns_effect _ _ _ _ _ Hw1 G NO) as E1.
  apply dns_field_cases in Hf as [-> | ->].
  - rewrite Mf in E1. destruct E1 as (G1 & P1 & P2).
    pose proof (scrub_dns_effect _ _ _ _ _ Hw2 G1 NO) as E2.
    split; [| split; auto].
    + destruct (dict_mem "UseDNSServers" (dict_del "DNSServers" blk)).
      * destruct E2 as (G2 & _). eexists. split; [exact G2 |].
        rewrite dict_get_del_neq by discriminate. apply dict_get_del_eq.
      * subst v4. eexists. split; [exact G1 | apply dict_get_del_eq].
    + apply scrub_dns_shrinks in Hw2. now apply (shrinks_None _ _ _ Hw2).
  - assert (exists blk1, dict_get b w = Some (VDict blk1) /\
                         dict_mem "UseDNSServers" blk1 = true) as (blk1 & G1 & M1).
    { destruct (dict_mem "DNSServers" blk).
      - destruct E1 as (G1 & _). eexists. split; [exact G1 |].
        now rewrite dict_mem_del_neq by discriminate.
      - subst w. eauto. }
    pose proof (scrub_dns_effect _ _ _ _ _ Hw2 G1 NO) as E2.
    rewrite M1 in E2. destruct E2 as (G2 & P1 & P2).
    split; [| split; auto].
    + eexists. split; [exact G2 | apply dict_get_del_eq].
    + intros A. apply P1. apply scrub_dns_shrinks in Hw1.
      now apply (shrinks_None _ _ _ Hw1).
Qed.

Lemma process_keys_block b f ks s s' blk :
  nodupb ks = true ->
  process_keys type_string path ks s = OK s' ->
  In b ks ->
  mem_str b dns_blocks = true ->
  In f dns_fields ->
  dict_get b (values s) = Some (VDict blk) ->
  dict_mem f blk = true ->
  (exists blk', dict_get b (values s') = Some (VDict blk') /\ dict_get f blk' = None) /\
  lookup_path (mirror_path b f) (VDict (values s)) <> None /\
  lookup_path (mirror_path b f) (VDict (values s')) = None.
Proof.
  revert s. induction ks as [| k0 ks IH]; intros s ND H HIn M Hf G Mf.
  - destruct HIn.
  - apply nodupb_cons in ND as [NI ND]. simpl in H.
    apply bind_OK in H as (s1 & H1 & H).
    destruct (string_dec k0 b) as [-> | N].
    + destruct (process_entry_block_self _ _ _ _ _ H1 M Hf G Mf)
        as ((blk' & G' & A') & P1 & P2).
      split; [| split; auto].
      * exists blk'. split; auto.
        erewrite process_keys_frame; eauto using block_not_Oem.
      * apply process_keys_shrinks in H. now apply (shrinks_None _ _ _ H).
    + destruct HIn as [E | HIn]; [congruence |].
      assert (G1 : dict_get b (values s1) = Some (VDict blk)).
      { erewrite process_entry_frame; eauto using block_not_Oem. }
      destruct (IH s1 ND H HIn M Hf G1 Mf) as (Q & P1 & P2).
      split; [exact Q | split; auto].
      intros A. apply P1. apply process_entry_shrinks in H1.
      now apply (shrinks_None _ _ _ H1).
Qed.

End NestedRedaction.

(** C5.  Whenever the pass over a record completes, a DNSServers or
    UseDNSServers sub-field of an IPv4, IPv6, DHCPv4 or DHCPv6 block is gone
    from the block, which itself stays, and from the mirror under
    Oem.Hpe.<block>, which held it before. *)
Theorem redaction_scrubs_dns_fields :
  forall (type_string : string) (path : value) (vals : dict) (s' : locals)
         (block field : string) (blk : dict),
    nodupb (keys vals) = true ->
    redact type_string path vals = OK s' ->
    In block dns_blocks ->
    In field dns_fields ->
    dict_get block vals = Some (VDict blk) ->
    dict_mem field blk = true ->
    (exists blk', dict_get block (values s') = Some (VDict blk') /\
                  dict_get field blk' = None) /\
    lookup_path (mirror_path block field) (VDict vals) <> None /\
    lookup_path (mirror_path block field) (VDict (values s')) = None.
Proof.
  intros ts path vals s' b f blk ND H Hb Hf G Mf. unfold redact in H.
  apply mem_str_In in Hb.
  apply (process_keys_block ts path b f (keys vals)
           {| typeselector := VNone; pathselector := VNone; values := vals |} s' blk);
    auto.
  apply dict_get_keys. congruence.
Qed.

(** ** Exceptions of the key loop *)

Section LoopExceptions.

Variable type_string : string.
Variable path : value.

Lemma get_top_Raise k vals e : get_top k vals = Raise e -> e = KeyError.
Proof. unfold get_top. destruct (dict_get k vals); congruence. Qed.

Lemma del_top_Raise k vals e : del_top k vals = Raise e -> e = KeyError.
Proof. unfold del_top. destruct (dict_mem k vals); congruence. Qed.

Lemma take_type_Raise k s e :
  take_type type_string path k s = Raise e -> e = KeyError.
Proof.
  unfold take_type. destruct (k =? type_string); [| discriminate].
  intros H. apply bind_Raise in H as [H | (v & _ & H)].
  - eapply get_top_Raise; eauto.
  - apply bind_Raise in H as [H | (d & _ & H)]; [| discriminate].
    eapply del_top_Raise; eauto.
Qed.

Lemma drop_always_Raise k vals e : drop_always k vals = Raise e -> e = KeyError.
Proof.
  unfold drop_always. destruct (mem_str k always_drop); [| discriminate].
  apply del_top_Raise.
Qed.

Lemma drop_static_Raise k vals e : drop_static k vals = Raise e -> e = KeyError.
Proof.
  unfold drop_static. destruct (mem_str k drop_if_nonempty); [| discriminate].
  intros H. apply bind_Raise in H as [H | (v & _ & H)].
  - eapply get_top_Raise; eauto.
  - destruct (truthy v); [| discriminate]. eapply del_top_Raise; eauto.
Qed.

Lemma delitem_Raise v k e : delitem v k = Raise e -> lookup_error e.
Proof.
  unfold lookup_error.
  destruct v; simpl; try (intros [= <-]; auto).
  destruct (dict_mem k d); [discriminate | intros [= <-]; auto].
Qed.

Lemma update_at_Raise k f v e :
  (forall x, f x = Raise e -> lookup_error e) ->
  update_at k f v = Raise e -> lookup_error e.
Proof.
  unfold lookup_error. intros Hf.
  destruct v; simpl; try (intros [= <-]; auto).
  destruct (dict_get k d) as [x |]; [| intros [= <-]; auto].
  intros H. apply bind_Raise in H as [H | (x' & _ & H)]; [eauto | discriminate].
Qed.

Lemma update_top_Raise k f vals e :
  (forall x, f x = Raise e -> lookup_error e) ->
  update_top k f vals = Raise e -> lookup_error e.
Proof.
  unfold update_top. intros Hf.
  destruct (dict_get k vals) as [x |]; [| intros [= <-]; left; auto].
  intros H. apply bind_Raise in H as [H | (x' & _ & H)]; [eauto | discriminate].
Qed.

Lemma scrub_dns_Raise k f vals e : scrub_dns k f vals = Raise e -> lookup_error e.
Proof.
  unfold scrub_dns. intros H.
  apply bind_Raise in H as [H | (blk & _ & H)].
  { left. eapply get_top_Raise; eauto. }
  apply bind_Raise in H as [H | (c & _ & H)].
  { right. destruct blk; simpl in H; congruence. }
  destruct c; [| discriminate].
  apply bind_Raise in H as [H | (vals1 & _ & H)].
  - eapply update_top_Raise; [| eauto]. intros x. apply delitem_Raise.
  - unfold del_mirror in H.
    eapply update_top_Raise; [| eauto].
    intros x. apply update_at_Raise.
    intros y. apply update_at_Raise.
    intros z. apply delitem_Raise.
Qed.

Lemma drop_dns_Raise k vals e : drop_dns k vals = Raise e -> lookup_error e.
Proof.
  unfold drop_dns. destruct (mem_str k dns_blocks); [| discriminate].
  intros H. apply bind_Raise in H as [H | (v & _ & H)];
    eapply scrub_dns_Raise; eauto.
Qed.

Lemma process_entry_Raise k s e :
  process_entry type_string path k s = Raise e -> lookup_error e.
Proof.
  unfold process_entry. intros H.
  apply bind_Raise in H as [H | (s1 & _ & H)].
  { left. eapply take_type_Raise; eauto. }
  apply bind_Raise in H as [H | (v2 & _ & H)].
  { left. eapply drop_always_Raise; eauto. }
  apply bind_Raise in H as [H | (v3 & _ & H)].
  { left. eapply drop_static_Raise; eauto. }
  apply bind_Raise in H as [H | (v4 & _ & H)]; [| discriminate].
  eapply drop_dns_Raise; eauto.
Qed.

Lemma process_keys_Raise ks s e :
  process_keys type_string path ks s = Raise e -> lookup_error e.
Proof.
  revert s. induction ks as [| k ks IH]; simpl; intros s H; [discriminate |].
  apply bind_Raise in H as [H | (s1 & _ & H)]; eauto using process_entry_Raise.
Qed.

(** *** On mapping-shaped records a failed subscript is a missing key *)

Lemma shaped_path p vals :
  mapping_shaped vals = true -> In p shape_paths ->
  mapping_or_absent (lookup_path p (VDict vals)) = true.
Proof.
  unfold mapping_shaped. rewrite forallb_forall. auto.
Qed.

Lemma shaped_shrinks vals' vals :
  shrinks (VDict vals') (VDict vals) ->
  mapping_shaped vals = true -> mapping_shaped vals' = true.
Proof.
  intros S H. unfold mapping_shaped. apply forallb_forall. intros p Hp.
  pose proof (shaped_path p vals H Hp) as A.
  destruct (lookup_path p (VDict vals')) as [x' |] eqn:E; auto.
  destruct (S p x' E) as (x & Hx & Ex). rewrite Hx in A. simpl in *. congruence.
Qed.

Lemma shaped_block b vals v :
  mapping_shaped vals = true -> mem_str b dns_blocks = true ->
  dict_get b vals = Some v -> is_dict v = true.
Proof.
  intros H M G.
  assert (Hp : In [b] shape_paths).
  { unfold shape_paths. apply in_or_app. left.
    apply in_map_iff. exists b. split; auto. now apply mem_str_In. }
  pose proof (shaped_path _ _ H Hp) as A. simpl in A. now rewrite G in A.
Qed.

Lemma del_mirror_Raise_shaped b f vals e :
  mapping_shaped vals = true -> mem_str b dns_blocks = true ->
  del_mirror b f vals = Raise e -> e = KeyError.
Proof.
  intros S M.
  assert (P1 : In ["Oem"] shape_paths) by (unfold shape_paths; simpl; tauto).
  assert (P2 : In ["Oem"; "Hpe"] shape_paths) by (unfold shape_paths; simpl; tauto).
  assert (P3 : In ["Oem"; "Hpe"; b] shape_paths).
  { unfold shape_paths. apply in_or_app. right. apply in_or_app. right.
    apply in_map_iff. exists b. split; auto. now apply mem_str_In. }
  apply (shaped_path _ _ S) in P1, P2, P3. simpl in P1, P2, P3.
  unfold del_mirror, update_top.
  destruct (dict_get "Oem" vals) as [oem |]; [| congruence].
  destruct oem as [| | | | | od]; try discriminate. simpl.
  destruct (dict_get "Hpe" od) as [hpe |]; [| simpl; congruence].
  destruct hpe as [| | | | | hd]; try discriminate. simpl.
  destruct (dict_get b hd) as [m |]; [| simpl; congruence].
  destruct m as [| | | | | md]; try discriminate. simpl.
  destruct (dict_mem f md); simpl; congruence.
Qed.

Lemma scrub_dns_Raise_shaped b f vals e :
  mapping_shaped vals = true -> mem_str b dns_blocks = true ->
  scrub_dns b f vals = Raise e -> e = KeyError.
Proof.
  intros S M. unfold scrub_dns. intros H.
  apply bind_Raise in H as [H | (blk & G & H)].
  { eapply get_top_Raise; eauto. }
  apply get_top_OK in G. pose proof (shaped_block _ _ _ S M G) as D.
  destruct blk as [| | | | | d]; try discriminate. simpl in H.
  destruct (dict_mem f d) eqn:Mf; [| discriminate].
  unfold update_top in H. rewrite G in H. simpl in H. rewrite Mf in H. simpl in H.
  eapply del_mirror_Raise_shaped; [| exact M | exact H].
  eapply shaped_shrinks; [| exact S].
  eapply shrinks_dict_set; [exact G | apply shrinks_dict_del].
Qed.

Lemma drop_dns_Raise_shaped k vals e :
  mapping_shaped vals = true -> drop_dns k vals = Raise e -> e = KeyError.
Proof.
  intros S. unfold drop_dns. destruct (mem_str k dns_blocks) eqn:M; [| discriminate].
  intros H. apply bind_Raise in H as [H | (v & Hv & H)].
  - eapply scrub_dns_Raise_shaped; eauto.
  - eapply scrub_dns_Raise_shaped; [| exact M | exact H].
    eapply shaped_shrinks; [eapply scrub_dns_shrinks; eauto | exact S].
Qed.

Lemma process_entry_Raise_shaped k s e :
  mapping_shaped (values s) = true ->
  process_entry type_string path k s = Raise e -> e = KeyError.
Proof.
  intros S. unfold process_entry. intros H.
  apply bind_Raise in H as [H | (s1 & H1 & H)].
  { eapply take_type_Raise; eauto. }
  apply bind_Raise in H as [H | (v2 & H2 & H)].
  { eapply drop_always_Raise; eauto. }
  apply bind_Raise in H as [H | (v3 & H3 & H)].
  { eapply drop_static_Raise; eauto. }
  apply bind_Raise in H as [H | (v4 & _ & H)]; [| discriminate].
  eapply drop_dns_Raise_shaped; [| exact H].
  eapply shaped_shrinks; [eapply drop_static_shrinks; eauto |].
  eapply shaped_shrinks; [eapply drop_always_shrinks; eauto |].
  eapply shaped_shrinks; [eapply take_type_shrinks; eauto | exact S].
Qed.

Lemma process_keys_Raise_shaped ks s e :
  mapping_shaped (values s) = true ->
  process_keys type_string path ks s = Raise e -> e = KeyError.
Proof.
  revert s. induction ks as [| k ks IH]; simpl; intros s S H; [discriminate |].
  apply bind_Raise in H as [H | (s1 & H1 & H)].
  - eapply process_entry_Raise_shaped; eauto.
  - eapply IH; [| exact H].
    eapply shaped_shrinks; [eapply process_entry_shrinks; eauto | exact S].
Qed.

End LoopExceptions.

Lemma locate_identity_head d vals rest idx :
  locate_identity d (vals :: rest) = OK idx ->
  exists p tl, idx = (p, vals) :: tl.
Proof.
  assert (A : forall ident r, index_by ident (vals :: rest) = OK r ->
                              exists p tl, r = (p, vals) :: tl).
  { intros ident r H. simpl in H. apply bind_OK in H as (p & _ & H).
    destruct (hashable p); [| discriminate].
    apply bind_OK in H as (tl & _ & H). injection H as <-. eauto. }
  unfold locate_identity.
  destruct (index_by (top_identity d) (vals :: rest)) as [r | e] eqn:E1.
  - intros [= <-]. eauto.
  - destruct e; try discriminate.
    destruct (index_by (nested_identity d) (vals :: rest)) as [r | e] eqn:E2.
    + intros [= <-]. eauto.
    + destruct e; discriminate.
Qed.

(** C10, as stated, fails: the IPv4 block of this record holds DNSServers,
    its mirror is missing because [Oem.Hpe] is null, and the exception is a
    TypeError. *)
Lemma null_vendor_mapping_counterexample :
  dict_get "IPv4" unmirrored_record = Some (VDict [("DNSServers", VList [VStr "10.0.0.1"])]) /\
  lookup_path (mirror_path "IPv4" "DNSServers") (VDict unmirrored_record) = None /\
  redact (typestring redfish) ethernet_path unmirrored_record = Raise TypeError /\
  saveworkerfunction redfish [unmirrored_record] = Raise TypeError.
Proof. repeat split. Qed.

(** C10, as amended.  A record with a DNSServers or UseDNSServers
    sub-field in a protocol block whose mirror under Oem.Hpe.<block> does
    not hold that sub-field never completes the pass: the pass raises
    KeyError or TypeError, neither of them a core error, and KeyError when
    the places the loop subscripts hold mappings.  Nothing in
    [saveworkerfunction] handles the exception. *)
Theorem redaction_raises_without_mirror :
  forall (d : defs) (vals : dict) (block field : string) (blk : dict),
    nodupb (keys vals) = true ->
    In block dns_blocks ->
    In field dns_fields ->
    dict_get block vals = Some (VDict blk) ->
    dict_mem field blk = true ->
    lookup_path (mirror_path block field) (VDict vals) = None ->
    (forall path, exists e,
        redact (typestring d) path vals = Raise e /\
        lookup_error e /\ core_error e = false /\
        (mapping_shaped vals = true -> e = KeyError)) /\
    (forall rest idx,
        locate_identity d (vals :: rest) = OK idx ->
        exists e,
          saveworkerfunction d (vals :: rest) = Raise e /\
          lookup_error e /\ core_error e = false /\
          (mapping_shaped vals = true -> e = KeyError)).
Proof.
  intros d vals b f blk ND Hb Hf G Mf Hm.
  assert (R : forall path, exists e,
             redact (typestring d) path vals = Raise e /\
             lookup_error e /\ core_error e = false /\
             (mapping_shaped vals = true -> e = KeyError)).
  { intros path. destruct (redact (typestring d) path vals) as [s' | e] eqn:E.
    - exfalso. unfold redact in E.
      assert (HIn : In b (keys vals)) by (apply dict_get_keys; congruence).
      apply mem_str_In in Hb.
      destruct (process_keys_block _ _ b f _ _ _ blk ND E HIn Hb Hf G Mf)
        as (_ & P & _).
      apply P. exact Hm.
    - exists e. split; [reflexivity |].
      pose proof (process_keys_Raise _ _ _ _ _ E) as L.
      split; [exact L |]. split.
      + destruct L as [-> | ->]; reflexivity.
      + intros S. eapply process_keys_Raise_shaped; [| exact E]. exact S. }
  split; [exact R |].
  intros rest idx HL.
  destruct (locate_identity_head _ _ _ _ HL) as (p & tl & ->).
  destruct (R p) as (e & E & L).
  exists e. split; [| exact L].
  unfold saveworkerfunction. rewrite HL. simpl. rewrite E. reflexivity.
Qed.

(** ** A second pass changes nothing *)

Section SecondPass.

Variable type_string : string.

Lemma process_entry_settled_noop path k s v :
  dict_get k (values s) = Some v ->
  settled type_string k v ->
  process_entry type_string path k s = OK s.
Proof.
  intros G (N & A & St & B). unfold process_entry, take_type.
  apply String.eqb_neq in N. rewrite N. simpl.
  unfold drop_always. rewrite A. simpl.
  assert (E3 : drop_static k (values s) = OK (values s)).
  { unfold drop_static. destruct (mem_str k drop_if_nonempty); auto.
    unfold get_top. rewrite G. simpl. now rewrite St. }
  rewrite E3. simpl.
  assert (E4 : drop_dns k (values s) = OK (values s)).
  { unfold drop_dns. destruct (mem_str k dns_blocks); auto.
    destruct (B eq_refl) as [B1 B2].
    unfold scrub_dns, get_top. rewrite G. simpl. rewrite B1. simpl.
    rewrite G. simpl. now rewrite B2. }
  rewrite E4. simpl. now destruct s.
Qed.

Lemma process_keys_settled_noop path ks s :
  (forall k, In k ks -> exists v, dict_get k (values s) = Some v /\
                                  settled type_string k v) ->
  process_keys type_string path ks s = OK s.
Proof.
  induction ks as [| k ks IH]; simpl; intros H; auto.
  destruct (H k (or_introl eq_refl)) as (v & G & St).
  rewrite (process_entry_settled_noop path k s v G St). simpl. auto.
Qed.

Lemma contains_after_del f g d :
  contains g (VDict d) = OK false -> contains g (VDict (dict_del f d)) = OK false.
Proof.
  simpl. intros [= M]. f_equal. destruct (string_dec g f) as [-> | N].
  - apply dict_mem_del.
  - now rewrite dict_mem_del_neq.
Qed.

Lemma scrub_dns_settles k f vals vals' :
  scrub_dns k f vals = OK vals' -> k <> "Oem" ->
  exists v', dict_get k vals' = Some v' /\ contains f v' = OK false /\
    forall g v0, dict_get k vals = Some v0 -> contains g v0 = OK false ->
                 contains g v' = OK false.
Proof.
  unfold scrub_dns. intros H N.
  apply bind_OK in H as (blk & G & H). apply get_top_OK in G.
  apply bind_OK in H as (c & C & H). destruct c.
  - apply bind_OK in H as (vals1 & H1 & H).
    apply update_top_OK in H1 as (x & x' & Gx & Hx & ->).
    rewrite G in Gx. injection Gx as <-.
    apply delitem_OK in Hx as (d & -> & _ & ->).
    exists (VDict (dict_del f d)).
    rewrite (del_mirror_frame k _ _ _ _ H N), dict_get_set_eq.
    split; [reflexivity |]. split.
    + simpl. now rewrite dict_mem_del.
    + intros g v0 G0 C0. rewrite G in G0. injection G0 as <-.
      now apply contains_after_del.
  - injection H as <-. exists blk. repeat split; auto.
    intros g v0 G0 C0. congruence.
Qed.

Lemma process_entry_settles_self path k s s' :
  process_entry type_string path k s = OK s' ->
  settled_at type_string k (values s').
Proof.
  unfold process_entry. intros H v G.
  apply bind_OK in H as (s1 & H1 & H).
  apply bind_OK in H as (v2 & H2 & H).
  apply bind_OK in H as (v3 & H3 & H).
  apply bind_OK in H as (v4 & H4 & H). injection H as <-.
  cbn [values with_values] in G.
  pose proof (drop_dns_shrinks _ _ _ H4) as S4.
  pose proof (drop_static_shrinks _ _ _ H3) as S3.
  pose proof (drop_always_shrinks _ _ _ H2) as S2.
  (* the key is not the type field: it would be gone *)
  assert (N : k <> type_string /\ s1 = s).
  { unfold take_type in H1. destruct (String.eqb_spec k type_string) as [E | N].
    - exfalso. apply bind_OK in H1 as (v0 & _ & H1).
      apply bind_OK in H1 as (d0 & Hd & H1). injection H1 as <-.
      apply del_top_OK in Hd as [_ ->]. simpl in *.
      pose proof (dict_get_del_eq k (values s)) as A.
      apply (shrinks_absent _ _ _ S2) in A.
      apply (shrinks_absent _ _ _ S3) in A.
      apply (shrinks_absent _ _ _ S4) in A. congruence.
    - split; congruence. }
  destruct N as [N ->].
  (* nor in the always-drop list *)
  assert (A : mem_str k always_drop = false /\ v2 = values s).
  { unfold drop_always in H2. destruct (mem_str k always_drop).
    - exfalso. apply del_top_OK in H2 as [_ ->].
      pose proof (dict_get_del_eq k (values s)) as A.
      apply (shrinks_absent _ _ _ S3) in A.
      apply (shrinks_absent _ _ _ S4) in A. congruence.
    - split; congruence. }
  destruct A as [A ->].
  unfold settled. split; [exact N |]. split; [exact A |].
  unfold drop_static in H3. unfold drop_dns in H4.
  destruct (mem_str k drop_if_nonempty) eqn:M3.
  - rewrite (static_not_block _ M3) in H4. injection H4 as <-.
    split; [| rewrite (static_not_block _ M3); discriminate].
    intros _. apply bind_OK in H3 as (v0 & G0 & H3). apply get_top_OK in G0.
    destruct (truthy v0) eqn:T.
    + apply del_top_OK in H3 as [_ ->]. rewrite dict_get_del_eq in G. discriminate.
    + injection H3 as <-. congruence.
  - injection H3 as <-. split; [discriminate |].
    intros M4. rewrite M4 in H4.
    pose proof (block_not_Oem _ M4) as NO.
    apply bind_OK in H4 as (w & Hw1 & Hw2).
    destruct (scrub_dns_settles _ _ _ _ Hw1 NO) as (v1 & G1 & C1 & _).
    destruct (scrub_dns_settles _ _ _ _ Hw2 NO) as (v' & G' & C' & P').
    rewrite G in G'. injection G' as <-. split; [| exact C'].
    eapply P'; eauto.
Qed.

Lemma settled_Oem v v' :
  settled type_string "Oem" v -> settled type_string "Oem" v'.
Proof.
  intros (N & _). unfold settled. repeat split; auto; discriminate.
Qed.

Lemma process_entry_settles_other path j k s s' :
  process_entry type_string path j s = OK s' -> j <> k ->
  settled_at type_string k (values s) ->
  settled_at type_string k (values s').
Proof.
  intros H N St v G.
  destruct (string_dec k "Oem") as [-> | NO].
  - destruct (dict_get "Oem" (values s)) as [v0 |] eqn:G0.
    + eapply settled_Oem. apply (St v0 G0).
    + apply process_entry_shrinks in H.
      apply (shrinks_absent _ _ _ H) in G0. congruence.
  - apply St. erewrite <- process_entry_frame; eauto.
Qed.

Lemma process_keys_settles path k ks s s' :
  process_keys type_string path ks s = OK s' ->
  In k ks \/ settled_at type_string k (values s) ->
  settled_at type_string k (values s').
Proof.
  revert s. induction ks as [| k0 ks IH]; simpl; intros s H D.
  - injection H as <-. destruct D as [[] | D]; exact D.
  - apply bind_OK in H as (s1 & H1 & H). apply (IH s1 H).
    destruct (string_dec k0 k) as [-> | N].
    + right. eapply process_entry_settles_self; eauto.
    + destruct D as [[E | HIn] | D]; [congruence | now left | right].
      eapply process_entry_settles_other; eauto.
Qed.

Lemma redact_settles path vals s' k :
  redact type_string path vals = OK s' ->
  settled_at type_string k (values s').
Proof.
  unfold redact. intros H.
  destruct (dict_get k vals) eqn:G.
  - eapply process_keys_settles; [exact H |]. left.
    apply dict_get_keys. congruence.
  - intros v G'. apply process_keys_shrinks in H. simpl in H.
    apply (shrinks_absent _ _ _ H) in G. congruence.
Qed.

End SecondPass.

(** ** Completion of the pass *)

Section Completion.

Variable type_string : string.
Variable path : value.
Hypothesis plain_type : plain_field type_string = true.

Lemma plain_field_cases k :
  plain_field k = true ->
  mem_str k always_drop = false /\ mem_str k drop_if_nonempty = false /\
  mem_str k dns_blocks = false /\ k <> "Oem".
Proof.
  unfold plain_field. intros Pl. apply negb_true_iff in Pl.
  apply orb_false_iff in Pl as [Pl P4]. apply orb_false_iff in Pl as [Pl P3].
  apply orb_false_iff in Pl as [P1 P2]. apply String.eqb_neq in P4. auto.
Qed.

Lemma lookup_mirror_set k x j f vals :
  k <> "Oem" ->
  lookup_path (mirror_path j f) (VDict (dict_set k x vals)) =
  lookup_path (mirror_path j f) (VDict vals).
Proof.
  intros N. unfold mirror_path. simpl.
  rewrite (dict_get_set_neq "Oem" k) by congruence. reflexivity.
Qed.

Lemma lookup_mirror_del k j f vals :
  k <> "Oem" ->
  lookup_path (mirror_path j f) (VDict (dict_del k vals)) =
  lookup_path (mirror_path j f) (VDict vals).
Proof.
  intros N. unfold mirror_path. simpl.
  rewrite (dict_get_del_neq "Oem" k) by congruence. reflexivity.
Qed.

Lemma del_mirror_other b f j g vals vals' :
  del_mirror b f vals = OK vals' -> j <> b \/ g <> f ->
  lookup_path (mirror_path j g) (VDict vals') =
  lookup_path (mirror_path j g) (VDict vals).
Proof.
  unfold del_mirror. intros H D.
  apply update_top_OK in H as (oem & oem' & G1 & H & ->).
  apply update_at_OK in H as (od & hpe & hpe' & -> & G2 & H & ->).
  apply update_at_OK in H as (hd & m & m' & -> & G3 & H & ->).
  apply delitem_OK in H as (md & -> & G4 & ->).
  unfold mirror_path. simpl. rewrite G1, G2, !dict_get_set_eq.
  destruct (string_dec j b) as [-> | N].
  - rewrite dict_get_set_eq, G3. simpl.
    destruct D as [D | D]; [congruence |]. now rewrite dict_get_del_neq.
  - now rewrite dict_get_set_neq.
Qed.

Lemma del_mirror_completes b f vals :
  lookup_path (mirror_path b f) (VDict vals) <> None ->
  exists vals', del_mirror b f vals = OK vals'.
Proof.
  unfold mirror_path, del_mirror, update_top. simpl.
  destruct (dict_get "Oem" vals) as [[| | | | | od] |]; try congruence. simpl.
  destruct (dict_get "Hpe" od) as [[| | | | | hd] |]; try congruence. simpl.
  destruct (dict_get b hd) as [[| | | | | md] |]; try congruence. simpl.
  unfold dict_mem. destruct (dict_get f md); [| congruence].
  simpl. eauto.
Qed.

Lemma scrub_dns_completes b f vals blk :
  dict_get b vals = Some (VDict blk) -> b <> "Oem" ->
  (dict_mem f blk = true -> lookup_path (mirror_path b f) (VDict vals) <> None) ->
  exists vals', scrub_dns b f vals = OK vals'.
Proof.
  intros G N M. unfold scrub_dns, get_top. rewrite G. simpl.
  destruct (dict_mem f blk) eqn:Mf; [| eauto].
  unfold update_top. rewrite G. simpl. rewrite Mf. simpl.
  apply del_mirror_completes. rewrite lookup_mirror_set by exact N. auto.
Qed.

Lemma scrub_dns_other b f j g vals vals' :
  scrub_dns b f vals = OK vals' -> b <> "Oem" -> j <> b \/ g <> f ->
  lookup_path (mirror_path j g) (VDict vals') =
  lookup_path (mirror_path j g) (VDict vals).
Proof.
  unfold scrub_dns. intros H N D.
  apply bind_OK in H as (blk & _ & H). apply bind_OK in H as (c & _ & H).
  destruct c; [| now injection H as <-].
  apply bind_OK in H as (vals1 & H1 & H).
  rewrite (del_mirror_other _ _ _ _ _ _ H D).
  apply update_top_OK in H1 as (x & x' & _ & _ & ->).
  now apply lookup_mirror_set.
Qed.

Lemma scrub_dns_keeps b f j vals vals' :
  scrub_dns b f vals = OK vals' ->
  dict_get j vals <> None -> dict_get j vals' <> None.
Proof.
  unfold scrub_dns. intros H P.
  apply bind_OK in H as (blk & _ & H). apply bind_OK in H as (c & _ & H).
  destruct c; [| now injection H as <-].
  apply bind_OK in H as (vals1 & H1 & H).
  apply update_top_OK in H1 as (x & x' & _ & _ & ->).
  unfold del_mirror in H. apply update_top_OK in H as (y & y' & _ & _ & ->).
  destruct (string_dec j "Oem") as [-> | N1].
  - rewrite dict_get_set_eq. discriminate.
  - rewrite dict_get_set_neq by exact N1.
    destruct (string_dec j b) as [-> | N2].
    + rewrite dict_get_set_eq. discriminate.
    + now rewrite dict_get_set_neq.
Qed.

Lemma process_entry_keeps k j s s' :
  process_entry type_string path k s = OK s' -> j <> k ->
  dict_get j (values s) <> None -> dict_get j (values s') <> None.
Proof.
  unfold process_entry. intros H N P.
  apply bind_OK in H as (s1 & H1 & H). apply bind_OK in H as (v2 & H2 & H).
  apply bind_OK in H as (v3 & H3 & H). apply bind_OK in H as (v4 & H4 & H).
  injection H as <-. cbn [values with_values].
  rewrite <- (take_type_frame _ _ j _ _ _ H1 N) in P.
  rewrite <- (drop_always_frame j _ _ _ H2 N) in P.
  rewrite <- (drop_static_frame j _ _ _ H3 N) in P.
  unfold drop_dns in H4. destruct (mem_str k dns_blocks); [| congruence].
  apply bind_OK in H4 as (w & Hw1 & Hw2).
  eapply scrub_dns_keeps; [exact Hw2 |]. eapply scrub_dns_keeps; eauto.
Qed.

Lemma process_entry_mirror_other k j f s s' :
  process_entry type_string path k s = OK s' -> j <> k ->
  lookup_path (mirror_path j f) (VDict (values s')) =
  lookup_path (mirror_path j f) (VDict (values s)).
Proof.
  destruct (plain_field_cases _ plain_type) as (T1 & T2 & T3 & T4).
  unfold process_entry. intros H N.
  apply bind_OK in H as (s1 & H1 & H). apply bind_OK in H as (v2 & H2 & H).
  apply bind_OK in H as (v3 & H3 & H). apply bind_OK in H as (v4 & H4 & H).
  injection H as <-. cbn [values with_values].
  assert (E1 : lookup_path (mirror_path j f) (VDict (values s1)) =
               lookup_path (mirror_path j f) (VDict (values s))).
  { unfold take_type in H1. destruct (String.eqb_spec k type_string) as [-> | _];
      [| congruence].
    apply bind_OK in H1 as (v0 & _ & H1). apply bind_OK in H1 as (d0 & Hd & H1).
    injection H1 as <-. apply del_top_OK in Hd as [_ ->]. simpl.
    now apply lookup_mirror_del. }
  assert (E2 : lookup_path (mirror_path j f) (VDict v2) =
               lookup_path (mirror_path j f) (VDict (values s1))).
  { unfold drop_always in H2. destruct (mem_str k always_drop) eqn:M; [| congruence].
    apply del_top_OK in H2 as [_ ->]. apply lookup_mirror_del.
    intros ->. discriminate. }
  assert (E3 : lookup_path (mirror_path j f) (VDict v3) =
               lookup_path (mirror_path j f) (VDict v2)).
  { unfold drop_static in H3. destruct (mem_str k drop_if_nonempty) eqn:M; [| congruence].
    apply bind_OK in H3 as (v0 & _ & H3). destruct (truthy v0); [| congruence].
    apply del_top_OK in H3 as [_ ->]. apply lookup_mirror_del.
    intros ->. discriminate. }
  rewrite <- E1, <- E2, <- E3.
  unfold drop_dns in H4. destruct (mem_str k dns_blocks) eqn:M; [| congruence].
  apply bind_OK in H4 as (w & Hw1 & Hw2).
  pose proof (block_not_Oem _ M) as NO.
  rewrite (scrub_dns_other _ _ j f _ _ Hw2 NO) by auto.
  now rewrite (scrub_dns_other _ _ j f _ _ Hw1 NO) by auto.
Qed.

Lemma process_entry_completes k s :
  dict_get k (values s) <> None ->
  mirrored_at k (values s) ->
  exists s', process_entry type_string path k s = OK s'.
Proof.
  destruct (plain_field_cases _ plain_type) as (T1 & T2 & T3 & T4).
  intros P M. unfold process_entry, take_type.
  destruct (String.eqb_spec k type_string) as [-> | N].
  - unfold get_top, del_top, dict_mem.
    destruct (dict_get type_string (values s)); [| congruence]. simpl.
    unfold drop_always, drop_static, drop_dns. rewrite T1, T2, T3. simpl. eauto.
  - simpl. unfold drop_always.
    destruct (mem_str k always_drop) eqn:M1.
    + unfold del_top, dict_mem. destruct (dict_get k (values s)); [| congruence].
      simpl. unfold drop_static, drop_dns.
      rewrite (always_not_static _ M1), (always_not_block _ M1). simpl. eauto.
    + simpl. unfold drop_static.
      destruct (mem_str k drop_if_nonempty) eqn:M2.
      * unfold get_top, del_top, dict_mem, drop_dns.
        rewrite (static_not_block _ M2).
        destruct (dict_get k (values s)) as [v |]; [| congruence]. simpl.
        destruct (truthy v); simpl; eauto.
      * simpl. unfold drop_dns. destruct (mem_str k dns_blocks) eqn:M3; [| simpl; eauto].
        pose proof (block_not_Oem _ M3) as NO.
        destruct (dict_get k (values s)) as [v |] eqn:G; [| congruence].
        destruct (M M3 v G) as (blk & -> & Hm).
        destruct (scrub_dns_completes k "DNSServers" _ blk G NO) as (w & Hw).
        { apply Hm. simpl. auto. }
        rewrite Hw. simpl.
        pose proof (scrub_dns_effect _ _ _ _ _ Hw G NO) as E.
        assert (exists blk1, dict_get k w = Some (VDict blk1) /\
                  dict_mem "UseDNSServers" blk1 = dict_mem "UseDNSServers" blk)
          as (blk1 & G1 & E1).
        { destruct (dict_mem "DNSServers" blk).
          - destruct E as (G1 & _). eexists. split; [exact G1 |].
            now rewrite dict_mem_del_neq by discriminate.
          - subst w. eauto. }
        destruct (scrub_dns_completes k "UseDNSServers" _ blk1 G1 NO) as (w' & Hw').
        { rewrite E1. intros Mu.
          rewrite (scrub_dns_other _ _ k "UseDNSServers" _ _ Hw NO)
            by (right; discriminate).
          apply Hm; simpl; auto. }
        rewrite Hw'. simpl. eauto.
Qed.

Lemma process_keys_completes ks s :
  nodupb ks = true ->
  (forall k, In k ks -> dict_get k (values s) <> None) ->
  (forall k, In k ks -> mirrored_at k (values s)) ->
  exists s', process_keys type_string path ks s = OK s'.
Proof.
  revert s. induction ks as [| k ks IH]; intros s ND P M; simpl; [eauto |].
  apply nodupb_cons in ND as [NI ND].
  destruct (process_entry_completes k s (P k (or_introl eq_refl)) (M k (or_introl eq_refl)))
    as (s1 & H1).
  rewrite H1. simpl. apply IH; [exact ND | |].
  - intros j Hj. apply (process_entry_keeps k j s s1 H1).
    + intros ->. auto.
    + apply P. now right.
  - intros j Hj Mj v G.
    assert (N : j <> k) by (intros ->; auto).
    rewrite (process_entry_frame _ _ j k _ _ H1 N (block_not_Oem _ Mj)) in G.
    destruct (M j (or_intror Hj) Mj v G) as (blk & -> & Hm).
    exists blk. split; auto. intros f Hf Mf.
    rewrite (process_entry_mirror_other _ _ f _ _ H1 N). auto.
Qed.

(** The pass over a record completes when the type field is one the loop
    has no rule for and every DNS sub-field of a protocol block is mirrored. *)
Lemma redact_completes vals :
  nodupb (keys vals) = true -> mirrored vals ->
  exists s', redact type_string path vals = OK s'.
Proof.
  intros ND M. unfold redact. apply process_keys_completes; [exact ND | |].
  - intros k Hk. now apply dict_get_keys.
  - intros k _. apply M.
Qed.

End Completion.

(** C8.  When the pass over a record's mapping completes, running the pass
    again on the resulting mapping completes and leaves it unchanged. *)
Theorem redaction_idempotent :
  forall (type_string : string) (path path' : value) (vals : dict) (s1 : locals),
    redact type_string path vals = OK s1 ->
    exists s2, redact type_string path' (values s1) = OK s2 /\
               values s2 = values s1.
Proof.
  intros ts path path' vals s1 H.
  exists {| typeselector := VNone; pathselector := VNone; values := values s1 |}.
  split; [| reflexivity]. unfold redact.
  apply process_keys_settled_noop.
  intros k HIn. simpl.
  apply dict_get_keys in HIn.
  destruct (dict_get k (values s1)) as [v |] eqn:G; [| congruence].
  exists v. split; auto.
  eapply redact_settles; eauto.
Qed.

(** ** Emitted entries *)

Section Entries.

Variable type_string : string.

Lemma emit_OK s tc tl tc' tl' :
  emit s tc tl = OK (tc', tl') ->
  (values s <> [] /\
   truthy (typeselector s) && truthy (pathselector s) = true /\
   tc' = Some (entry_of s) /\ tl' = tl ++ [entry_of s]) \/
  (values s = [] /\ exists e, tc = Some e /\ tc' = tc /\ tl' = tl ++ [e]).
Proof.
  unfold emit. intros H. apply bind_OK in H as (x & Hx & H).
  destruct (values s) as [| kv r] eqn:V.
  - right. injection Hx as <-. split; auto.
    destruct tc as [e |]; [| discriminate]. injection H as <- <-. eauto.
  - left. split; [discriminate |].
    destruct (truthy (typeselector s) && truthy (pathselector s)); [| discriminate].
    destruct (hashable (typeselector s)); [| discriminate].
    injection Hx as <-. injection H as <- <-.
    unfold entry_of. rewrite V. auto.
Qed.

Lemma process_records_inv (P : entry -> Prop) contents tc tl out :
  (forall p vals s, In (p, vals) contents ->
     redact type_string p vals = OK s ->
     truthy (typeselector s) && truthy (pathselector s) = true ->
     P (entry_of s)) ->
  (forall e, tc = Some e -> P e) ->
  Forall P tl ->
  process_records type_string contents tc tl = OK out ->
  Forall P out.
Proof.
  revert tc tl. induction contents as [| [p vals] rest IH]; simpl; intros tc tl HP Htc Htl H.
  - now injection H as <-.
  - apply bind_OK in H as (s & Hs & H). apply bind_OK in H as ([tc' tl'] & He & H).
    simpl in H. apply emit_OK in He.
    assert (Pnew : (forall e, tc' = Some e -> P e) /\ Forall P tl').
    { destruct He as [(_ & T & -> & ->) | (_ & e & -> & -> & ->)].
      - assert (P (entry_of s)) by (eapply HP; eauto).
        split; [intros e [= <-]; auto | apply Forall_app; auto].
      - split; [auto | apply Forall_app; auto]. }
    destruct Pnew. eapply IH; eauto.
Qed.

Lemma take_type_pathselector path k s s' :
  take_type type_string path k s = OK s' ->
  pathselector s' = path \/ pathselector s' = pathselector s.
Proof.
  unfold take_type. destruct (k =? type_string).
  - intros H. apply bind_OK in H as (v & _ & H). apply bind_OK in H as (d & _ & H).
    injection H as <-. now left.
  - intros [= <-]. now right.
Qed.

Lemma process_keys_pathselector path ks s s' :
  process_keys type_string path ks s = OK s' ->
  pathselector s' = path \/ pathselector s' = pathselector s.
Proof.
  revert s. induction ks as [| k ks IH]; simpl; intros s H.
  - injection H as <-. now right.
  - apply bind_OK in H as (s1 & H1 & H).
    unfold process_entry in H1.
    apply bind_OK in H1 as (t1 & T1 & H1).
    apply bind_OK in H1 as (v2 & _ & H1).
    apply bind_OK in H1 as (v3 & _ & H1).
    apply bind_OK in H1 as (v4 & _ & H1). injection H1 as <-.
    destruct (IH _ H) as [E | E]; [now left |].
    simpl in E. rewrite E. eapply take_type_pathselector; eauto.
Qed.

Lemma process_entry_plain_self path k s s' :
  process_entry type_string path k s = OK s' ->
  k <> type_string -> plain_field k = true ->
  s' = s.
Proof.
  unfold process_entry, plain_field. intros H N Pl.
  apply negb_true_iff in Pl.
  apply orb_false_iff in Pl as [Pl _]. apply orb_false_iff in Pl as [Pl P3].
  apply orb_false_iff in Pl as [P1 P2].
  apply String.eqb_neq in N.
  unfold take_type, drop_always, drop_static, drop_dns in H.
  rewrite N, P1, P2, P3 in H. simpl in H. injection H as <-. now destruct s.
Qed.

Lemma process_keys_plain path k ks s s' :
  process_keys type_string path ks s = OK s' ->
  k <> type_string -> plain_field k = true ->
  dict_get k (values s') = dict_get k (values s).
Proof.
  revert s. induction ks as [| k0 ks IH]; simpl; intros s H N Pl.
  - now injection H as <-.
  - apply bind_OK in H as (s1 & H1 & H). rewrite (IH _ H N Pl).
    destruct (string_dec k0 k) as [-> | N0].
    + now rewrite (process_entry_plain_self _ _ _ _ H1 N Pl).
    + eapply process_entry_frame; eauto.
      unfold plain_field in Pl. apply negb_true_iff in Pl.
      apply orb_false_iff in Pl as [_ Pl]. now apply String.eqb_neq.
Qed.

Lemma emit_without_identity s tc tl :
  values s <> [] ->
  truthy (typeselector s) && truthy (pathselector s) = false ->
  emit s tc tl = Raise InvalidFileFormattingError.
Proof.
  intros V T. unfold emit. destruct (values s); [congruence |].
  now rewrite T.
Qed.

(** A path field the loop has no rule for stays in the mapping, which is
    therefore not empty after the loop. *)
Lemma kept_path_field_nonempty path k p vals s :
  redact type_string path vals = OK s ->
  k <> type_string -> plain_field k = true ->
  dict_get k vals = Some p ->
  dict_get k (values s) = Some p /\ values s <> [].
Proof.
  intros R N Pl G. unfold redact in R.
  pose proof (process_keys_plain _ _ _ _ _ R N Pl) as E. simpl in E.
  rewrite G in E. split; [exact E |].
  intros V. rewrite V in E. discriminate.
Qed.

(** When no record is left empty by the loop, each record gives one entry,
    in order. *)
Lemma process_records_one_each contents tc tl out :
  Forall (fun pv => forall s, redact type_string (fst pv) (snd pv) = OK s ->
                              values s <> []) contents ->
  process_records type_string contents tc tl = OK out ->
  exists es,
    out = tl ++ es /\
    Forall2 (fun pv e =>
               exists s, redact type_string (fst pv) (snd pv) = OK s /\
                         truthy (typeselector s) && truthy (pathselector s) = true /\
                         e = entry_of s) contents es.
Proof.
  revert tc tl. induction contents as [| [p vals] rest IH]; simpl; intros tc tl HF H.
  - injection H as <-. exists []. now rewrite app_nil_r.
  - inversion HF as [| x xs Hne HF']; subst. simpl in Hne.
    apply bind_OK in H as (s & Hs & H). apply bind_OK in H as ([tc' tl'] & He & H).
    simpl in H. apply emit_OK in He as [(_ & T & -> & ->) | (V & _)].
    + destruct (IH _ _ HF' H) as (es & -> & F2).
      exists (entry_of s :: es). rewrite <- app_assoc. split; [reflexivity |].
      constructor; [exists s; auto | exact F2].
    + exfalso. exact (Hne s Hs V).
Qed.

Lemma redact_type_absent path vals s :
  redact type_string path vals = OK s ->
  dict_get type_string (values s) = None.
Proof.
  intros H. destruct (dict_get type_string (values s)) as [v |] eqn:G; auto.
  destruct (redact_settles _ _ _ _ type_string H v G) as [N _]. congruence.
Qed.

End Entries.

Lemma index_by_Forall2 ident content idx :
  index_by ident content = OK idx ->
  Forall2 (fun val pv => snd pv = val /\ ident val = OK (fst pv)) content idx.
Proof.
  revert idx. induction content as [| r rest IH]; simpl; intros idx H.
  - injection H as <-. constructor.
  - apply bind_OK in H as (q & Hq & H). destruct (hashable q); [| discriminate].
    apply bind_OK in H as (tl & Htl & H). injection H as <-.
    constructor; auto.
Qed.

(** Under a top-level path field that the loop has no rule for, extraction
    gives exactly one entry per record, in order, with the record's path and
    what the loop left of the record. *)
Lemma one_entry_per_record d content idx entries :
  index_by (top_identity d) content = OK idx ->
  hrefstring d <> typestring d ->
  plain_field (hrefstring d) = true ->
  saveworkerfunction d content = OK entries ->
  Forall2 (fun val e =>
             exists s, top_identity d val = OK (e_path e) /\
                       redact (typestring d) (e_path e) val = OK s /\
                       e = entry_of s) content entries.
Proof.
  intros HI N Pl H. unfold saveworkerfunction, locate_identity in H.
  rewrite HI in H. simpl in H.
  pose proof (index_by_Forall2 _ _ _ HI) as F.
  assert (NE : Forall (fun pv => forall s,
                 redact (typestring d) (fst pv) (snd pv) = OK s -> values s <> []) idx).
  { clear H HI. induction F as [| val [p v] c i [E1 E2] F IHF]; constructor; auto.
    simpl in *. subst v. intros s R. unfold top_identity in E2.
    apply get_top_OK in E2.
    exact (proj2 (kept_path_field_nonempty _ _ _ _ _ _ R N Pl E2)). }
  destruct (process_records_one_each _ _ _ _ _ NE H) as (es & -> & F2). simpl.
  clear H HI NE. revert es F2.
  induction F as [| val [p v] c i [E1 E2] F IHF]; intros es F2;
    inversion F2 as [| x e xs es' (s & R & T & ->) F2']; subst; constructor; auto.
  simpl in *.
  assert (Ep : pathselector s = p).
  { pose proof R as R'. unfold redact in R'.
    apply process_keys_pathselector in R' as [E | E]; auto. simpl in E.
    rewrite E, andb_false_r in T. discriminate. }
  exists s. simpl. rewrite Ep. auto.
Qed.

Lemma index_by_In ident content idx p vals :
  index_by ident content = OK idx -> In (p, vals) idx -> ident vals = OK p.
Proof.
  revert idx. induction content as [| r rest IH]; simpl; intros idx H HIn.
  - injection H as <-. destruct HIn.
  - apply bind_OK in H as (q & Hq & H). destruct (hashable q); [| discriminate].
    apply bind_OK in H as (tl & Htl & H). injection H as <-.
    destruct HIn as [[= <- <-] | HIn]; eauto.
Qed.

(** C2, as stated, fails: the entry emitted for the scenario record still
    holds the path identity field among its properties. *)
Lemma path_identity_kept_counterexample :
  exists e,
    saveworkerfunction redfish [bios_record] = OK [e] /\
    e_path e = VStr "/redfish/v1/Bios/1" /\
    dict_get (hrefstring redfish) (e_props e) = Some (VStr "/redfish/v1/Bios/1").
Proof.
  eexists. split; [reflexivity |]. split; reflexivity.
Qed.

(** C2, as amended.  The type-selector field never appears in an emitted
    entry's properties.  The path identity field is not removed: when the
    identities are the top-level fields, and that field is neither the type
    field nor one the loop has a rule for, every emitted entry still holds it,
    with the entry's path as its value. *)
Theorem identity_in_emitted_properties :
  forall (d : defs) (content : list dict) (entries : list entry),
    saveworkerfunction d content = OK entries ->
    Forall (fun e => dict_get (typestring d) (e_props e) = None) entries /\
    (forall idx,
       index_by (top_identity d) content = OK idx ->
       hrefstring d <> typestring d ->
       plain_field (hrefstring d) = true ->
       Forall (fun e => dict_get (hrefstring d) (e_props e) = Some (e_path e)) entries).
Proof.
  intros d content entries H. unfold saveworkerfunction in H.
  apply bind_OK in H as (contents & HL & H). split.
  - eapply process_records_inv; [| | | exact H]; auto; [| discriminate].
    intros p vals s _ R _. simpl. eapply redact_type_absent; eauto.
  - intros idx HI N Pl.
    assert (contents = idx) as ->.
    { unfold locate_identity in HL. rewrite HI in HL. congruence. }
    eapply process_records_inv; [| | | exact H]; auto; [| discriminate].
    intros p vals s HIn R T. simpl.
    apply (index_by_In _ _ _ _ _ HI) in HIn. apply get_top_OK in HIn.
    unfold redact in R.
    rewrite (process_keys_plain _ _ _ _ _ _ R N Pl). simpl. rewrite HIn.
    apply process_keys_pathselector in R as [-> | E]; auto.
    simpl in E. rewrite E in T. rewrite andb_false_r in T. discriminate.
Qed.

(** ** No located record is left empty by the loop *)

Section KeptPath.

Variable d : defs.
Hypothesis kept : path_kept d = true.



End KeptPath.





Lemma library_conventions_keep_path :
  path_kept redfish = true /\ path_kept legacy_rest = true.
Proof. split; reflexivity. Qed.

(** ** Identity lookup *)

Section IdentityLookup.

Lemma index_by_KeyError ident content :
  index_by ident content = Raise KeyError -> existsb (lacks ident) content = true.
Proof.
  induction content as [| r rest IH]; simpl; [discriminate |].
  intros H. unfold lacks at 1.
  apply bind_Raise in H as [H | (p & Hp & H)].
  - now rewrite H.
  - rewrite Hp. simpl. destruct (hashable p); [| discriminate].
    apply bind_Raise in H as [H | (tl & _ & H)]; [auto | discriminate].
Qed.

Lemma index_by_typed ident content :
  forallb (lookup_typed ident) content = true ->
  existsb (lacks ident) content = true ->
  index_by ident content = Raise KeyError.
Proof.
  induction content as [| r rest IH]; simpl; [discriminate |].
  intros T L. apply andb_true_iff in T as [T1 T2].
  unfold lacks in L at 1. unfold lookup_typed in T1.
  destruct (ident r) as [p | e]; simpl in *.
  - rewrite T1. now rewrite IH.
  - destruct e; try discriminate. reflexivity.
Qed.

Lemma emit_Raise s tc tl e :
  emit s tc tl = Raise e -> e <> iLORisCorruptionError.
Proof.
  unfold emit. intros H. apply bind_Raise in H as [H | (x & _ & H)].
  - destruct (values s); [discriminate |].
    destruct (truthy (typeselector s) && truthy (pathselector s));
      [destruct (hashable (typeselector s)) |]; congruence.
  - destruct x; congruence.
Qed.

Lemma process_records_Raise ts contents tc tl e :
  process_records ts contents tc tl = Raise e -> e <> iLORisCorruptionError.
Proof.
  revert tc tl. induction contents as [| [p vals] rest IH]; simpl; intros tc tl H.
  - discriminate.
  - apply bind_Raise in H as [H | (s & _ & H)].
    { destruct (process_keys_Raise _ _ _ _ _ H); congruence. }
    apply bind_Raise in H as [H | (st & _ & H)]; eauto using emit_Raise.
Qed.

Lemma getitem_Raise v k e : getitem v k = Raise e -> lookup_error e.
Proof.
  unfold lookup_error. destruct v; simpl; try (intros [= <-]; auto).
  destruct (dict_get k d); [discriminate | intros [= <-]; auto].
Qed.

Lemma index_by_Raise ident content e :
  (forall r e', ident r = Raise e' -> lookup_error e') ->
  index_by ident content = Raise e -> lookup_error e.
Proof.
  intros Hi. induction content as [| r rest IH]; simpl; [discriminate |].
  intros H. apply bind_Raise in H as [H | (p & _ & H)]; [eauto |].
  destruct (hashable p); [| injection H as <-; now right].
  apply bind_Raise in H as [H | (tl & _ & H)]; [auto | discriminate].
Qed.

Lemma top_identity_Raise d r e : top_identity d r = Raise e -> lookup_error e.
Proof. intros H. left. eapply get_top_Raise; eauto. Qed.

Lemma nested_identity_Raise d r e : nested_identity d r = Raise e -> lookup_error e.
Proof.
  unfold nested_identity. intros H.
  apply bind_Raise in H as [H | (l & _ & H)].
  { left. eapply get_top_Raise; eauto. }
  apply bind_Raise in H as [H | (x & _ & H)]; eapply getitem_Raise; eauto.
Qed.

Lemma corruption_only_from_lookup d content :
  saveworkerfunction d content = Raise iLORisCorruptionError <->
  index_by (top_identity d) content = Raise KeyError /\
  index_by (nested_identity d) content = Raise KeyError.
Proof.
  unfold saveworkerfunction, locate_identity. split.
  - intros H. apply bind_Raise in H as [H | (c & _ & H)].
    + destruct (index_by (top_identity d) content) as [| e1] eqn:E1; [discriminate |].
      pose proof (index_by_Raise _ _ _ (top_identity_Raise d) E1) as [-> | ->];
        [| discriminate].
      destruct (index_by (nested_identity d) content) as [| e2] eqn:E2; [discriminate |].
      pose proof (index_by_Raise _ _ _ (nested_identity_Raise d) E2) as [-> | ->];
        [auto | discriminate].
    + apply process_records_Raise in H. congruence.
  - intros [-> ->]. reflexivity.
Qed.

Lemma located_not_lacks ident content :
  forallb (located ident) content = true -> existsb (lacks ident) content = false.
Proof.
  induction content as [| r rest IH]; simpl; auto.
  intros H. apply andb_true_iff in H as [H1 H2]. rewrite (IH H2).
  unfold located in H1. unfold lacks. destruct (ident r); [reflexivity | discriminate].
Qed.

End IdentityLookup.

(** C3, as stated, fails: each record of this batch has its identity under
    one of the two conventions, and extraction raises the corruption error. *)
Lemma mixed_batch_counterexample :
  located (top_identity redfish) bios_record = true /\
  located (nested_identity redfish) legacy_record = true /\
  saveworkerfunction redfish [bios_record; legacy_record] = Raise iLORisCorruptionError.
Proof. repeat split. Qed.

(** C3, as amended.  The corruption error is raised only when some record
    lacks the top-level identity and some record, possibly another one,
    lacks the nested identity; on batches whose lookups meet mappings and
    hashable identities that condition is also sufficient.  A batch in which
    every record has the top-level identity, or every record has the nested
    one, does not raise it. *)
Theorem corruption_error_characterised :
  forall (d : defs) (content : list dict),
    (saveworkerfunction d content = Raise iLORisCorruptionError ->
       existsb (lacks (top_identity d)) content = true /\
       existsb (lacks (nested_identity d)) content = true) /\
    (forallb (lookup_typed (top_identity d)) content = true ->
     forallb (lookup_typed (nested_identity d)) content = true ->
     existsb (lacks (top_identity d)) content = true ->
     existsb (lacks (nested_identity d)) content = true ->
     saveworkerfunction d content = Raise iLORisCorruptionError) /\
    (forallb (located (top_identity d)) content = true \/
     forallb (located (nested_identity d)) content = true ->
     saveworkerfunction d content <> Raise iLORisCorruptionError).
Proof.
  intros d content.
  assert (A : saveworkerfunction d content = Raise iLORisCorruptionError ->
              existsb (lacks (top_identity d)) content = true /\
              existsb (lacks (nested_identity d)) content = true).
  { intros H. apply corruption_only_from_lookup in H as [H1 H2].
    split; now apply index_by_KeyError. }
  split; [exact A |]. split.
  - intros T1 T2 L1 L2. apply corruption_only_from_lookup.
    split; now apply index_by_typed.
  - intros [H | H] C; destruct (A C) as [L1 L2];
      apply located_not_lacks in H; congruence.
Qed.

(** ** Assembly *)

Lemma fold_extend (multisave : list (list entry)) (acc : list entry) :
  fold_left (fun acc p => acc ++ p) multisave acc = acc ++ concat multisave.
Proof.
  revert acc. induction multisave as [| p ps IH]; simpl; intros acc.
  - now rewrite app_nil_r.
  - now rewrite IH, app_assoc.
Qed.

Lemma concat_nil_Forall (passes : list (list entry)) :
  concat passes = [] <-> Forall (fun pass => pass = []) passes.
Proof.
  induction passes as [| p ps IH]; simpl.
  - split; auto.
  - split.
    + intros H. apply app_eq_nil in H as [-> H]. constructor; auto. now apply IH.
    + intros H. inversion H; subst. simpl. now apply IH.
Qed.

(** C6.  Assembly raises NothingSelectedError exactly when every pass
    yielded no entries; otherwise it succeeds with the header at index zero,
    followed by the entries of the primary pass and then of each further
    pass, in the order the passes ran. *)
Theorem assembly_header_first :
  forall (headers : dict) (primary : list entry) (multisave : list (list entry)),
    (assemble headers primary multisave = Raise NothingSelectedError <->
       Forall (fun pass => pass = []) (primary :: multisave)) /\
    (Exists (fun pass => pass <> []) (primary :: multisave) ->
       assemble headers primary multisave =
         OK (Header headers :: map Item (primary ++ concat multisave))) /\
    (forall snapshot,
       assemble headers primary multisave = OK snapshot ->
       nth_error snapshot 0 = Some (Header headers) /\
       tl snapshot = map Item (primary ++ concat multisave)).
Proof.
  intros headers primary multisave. unfold assemble. rewrite fold_extend.
  change (primary ++ concat multisave) with (concat (primary :: multisave)).
  rewrite <- concat_nil_Forall.
  destruct (concat (primary :: multisave)) as [| e r] eqn:E.
  - split; [split; auto |]. split; [| discriminate].
    intros H. apply concat_nil_Forall in E. exfalso.
    apply Exists_exists in H as (pass & HIn & N).
    rewrite Forall_forall in E. auto.
  - split; [split; discriminate |]. split; [reflexivity |].
    intros snapshot [= <-]. split; reflexivity.
Qed.

(** ** The destination file *)

(** C9, as stated, fails: an exception raised while encoding leaves the
    destination truncated, its previous content lost. *)
Lemma encoding_error_truncates_counterexample :
  run redfish [] [bios_record] [] (fun _ => Raise ValueError) (Some "previous save")
  = (Raise ValueError, Some "").
Proof. reflexivity. Qed.

(** C9, as amended.  An exception raised by extraction or assembly leaves
    the destination as it was.  An exception raised while encoding or
    enciphering comes after the destination has been opened for writing: the
    destination then exists and is empty.  No failing run writes data. *)
Theorem failed_save_writes_no_data :
  forall (d : defs) (headers : dict) (primary : list dict)
         (multisave : list (list dict)) (encode : list item -> result string)
         (dest dest' : file) (e : exn),
    run d headers primary multisave encode dest = (Raise e, dest') ->
    (collect d headers primary multisave = Raise e /\ dest' = dest) \/
    (exists contents,
        collect d headers primary multisave = OK contents /\
        encode contents = Raise e /\ dest' = Some "").
Proof.
  intros d headers primary multisave encode dest dest' e. unfold run.
  destruct (collect d headers primary multisave) as [contents | e0].
  - destruct (encode contents) as [data | e1] eqn:E; intros [= <- <-].
    right. exists contents. auto.
  - intros [= <- <-]. now left.
Qed.

(** ** [nested_sort] *)

(** Induction on values, through the lists and dicts they hold. *)
Lemma value_ind (P : value -> Prop)
  (HNone : P VNone)
  (HBool : forall b, P (VBool b))
  (HNum : forall n, P (VNum n))
  (HStr : forall s, P (VStr s))
  (HList : forall l, Forall P l -> P (VList l))
  (HDict : forall d, Forall (fun kv => P (snd kv)) d -> P (VDict d)) :
  forall v, P v.
Proof.
  fix IH 1. intros [| b | n | s | l | d].
  - exact HNone.
  - apply HBool.
  - apply HNum.
  - apply HStr.
  - apply HList. induction l as [| x l IHl]; constructor; [apply IH | exact IHl].
  - apply HDict. induction d as [| [k x] d IHd]; constructor; [apply IH | exact IHd].
Qed.

Section Sorting.

Lemma leb_refl s : (s <=? s) = true.
Proof.
  unfold String.leb. destruct (String.compare s s) eqn:E; auto.
  pose proof (String.compare_antisym s s) as A. rewrite E in A. discriminate.
Qed.

Lemma compare_lt_trans s1 s2 s3 :
  String.compare s1 s2 = Lt -> String.compare s2 s3 = Lt -> String.compare s1 s3 = Lt.
Proof.
  revert s2 s3. induction s1 as [| a s1 IH]; intros [| b s2] [| c s3]; simpl;
    try discriminate; auto.
  unfold Ascii.compare.
  destruct (N.compare_spec (N_of_ascii a) (N_of_ascii b)) as [Eab | Lab | Gab];
    try discriminate;
    destruct (N.compare_spec (N_of_ascii b) (N_of_ascii c)) as [Ebc | Lbc | Gbc];
    try discriminate; intros H1 H2.
  - rewrite Eab, Ebc, N.compare_refl. eauto.
  - rewrite Eab. now apply N.compare_lt_iff in Lbc as ->.
  - rewrite <- Ebc. now apply N.compare_lt_iff in Lab as ->.
  - assert (L : (N_of_ascii a < N_of_ascii c)%N) by lia.
    now apply N.compare_lt_iff in L as ->.
Qed.

Lemma leb_trans s1 s2 s3 :
  (s1 <=? s2) = true -> (s2 <=? s3) = true -> (s1 <=? s3) = true.
Proof.
  intros H12 H23.
  destruct (String.compare s1 s2) eqn:E12.
  - apply String.compare_eq_iff in E12. now subst.
  - destruct (String.compare s2 s3) eqn:E23.
    + apply String.compare_eq_iff in E23. now subst.
    + unfold String.leb. now rewrite (compare_lt_trans _ _ _ E12 E23).
    + unfold String.leb in H23. rewrite E23 in H23. discriminate.
  - unfold String.leb in H12. rewrite E12 in H12. discriminate.
Qed.

Lemma leb_flip s1 s2 : (s1 <=? s2) = false -> (s2 <=? s1) = true.
Proof.
  intros H. destruct (String.leb_total s1 s2) as [T | T]; congruence.
Qed.

Lemma nodupb_NoDup l : nodupb l = true -> NoDup l.
Proof.
  induction l as [| k r IH]; intros H; constructor;
    apply nodupb_cons in H as [N H]; auto.
Qed.

(** *** The sort *)

Lemma insert_item_sorted kv l :
  key_sortedb (keys l) = true -> key_sortedb (keys (insert_item kv l)) = true.
Proof.
  induction l as [| h t IH]; simpl; auto.
  intros S. destruct (fst kv <=? fst h) eqn:L.
  - simpl. rewrite L. exact S.
  - apply leb_flip in L.
    assert (St : key_sortedb (keys t) = true).
    { destruct t; auto. simpl in S. now apply andb_true_iff in S as [_ S]. }
    specialize (IH St).
    destruct t as [| h2 t2]; simpl in *.
    + now rewrite L.
    + apply andb_true_iff in S as [S1 S2].
      destruct (fst kv <=? fst h2) eqn:L2; simpl in *.
      * rewrite L. simpl. rewrite L2. exact S2.
      * rewrite S1. exact IH.
Qed.

Lemma sorted_by_key_sorted l : key_sortedb (keys (sorted_by_key l)) = true.
Proof.
  induction l as [| h t IH]; simpl; auto. now apply insert_item_sorted.
Qed.

Lemma sorted_by_key_fix l : key_sortedb (keys l) = true -> sorted_by_key l = l.
Proof.
  induction l as [| h t IH]; simpl; auto.
  intros S. destruct t as [| h2 t2]; auto.
  simpl in S. apply andb_true_iff in S as [S1 S2].
  rewrite (IH S2). simpl. now rewrite S1.
Qed.

Lemma sorted_by_key_idem l : sorted_by_key (sorted_by_key l) = sorted_by_key l.
Proof. apply sorted_by_key_fix, sorted_by_key_sorted. Qed.

Lemma insert_item_perm kv l : Permutation (insert_item kv l) (kv :: l).
Proof.
  induction l as [| h t IH]; simpl; auto.
  destruct (fst kv <=? fst h); auto.
  rewrite IH. apply perm_swap.
Qed.

Lemma sorted_by_key_perm l : Permutation (sorted_by_key l) l.
Proof.
  induction l as [| h t IH]; simpl; auto.
  rewrite insert_item_perm. now constructor.
Qed.

Lemma insert_item_map (g : string * value -> string * value) kv l :
  (forall x, fst (g x) = fst x) ->
  map g (insert_item kv l) = insert_item (g kv) (map g l).
Proof.
  intros Hg. induction l as [| h t IH]; simpl; auto.
  rewrite !Hg. destruct (fst kv <=? fst h); simpl; now rewrite ?IH.
Qed.

Lemma sorted_by_key_map (g : string * value -> string * value) l :
  (forall x, fst (g x) = fst x) ->
  map g (sorted_by_key l) = sorted_by_key (map g l).
Proof.
  intros Hg. induction l as [| h t IH]; simpl; auto.
  now rewrite insert_item_map, IH.
Qed.

(** *** A sorted list with unique keys is determined by its elements *)

Lemma sorted_head_least k ks :
  key_sortedb (k :: ks) = true -> Forall (fun k' => (k <=? k') = true) ks.
Proof.
  revert k. induction ks as [| k2 ks IH]; intros k S; constructor.
  - simpl in S. now apply andb_true_iff in S as [S _].
  - simpl in S. apply andb_true_iff in S as [S1 S2].
    apply IH in S2. eapply Forall_impl; [| exact S2].
    intros k' L. simpl in L. eapply leb_trans; eauto.
Qed.

Lemma sorted_tail k ks : key_sortedb (k :: ks) = true -> key_sortedb ks = true.
Proof.
  destruct ks; auto. simpl. intros S. now apply andb_true_iff in S as [_ S].
Qed.

Lemma sorted_unique (l1 l2 : dict) :
  key_sortedb (keys l1) = true -> key_sortedb (keys l2) = true ->
  Permutation l1 l2 -> NoDup (keys l1) -> l1 = l2.
Proof.
  revert l2. induction l1 as [| a t1 IH]; intros l2 S1 S2 HP ND.
  - apply Permutation_nil in HP. now subst.
  - destruct l2 as [| b t2].
    { apply Permutation_sym, Permutation_nil in HP. discriminate. }
    assert (E : a = b).
    { assert (Hb : In b (a :: t1)).
      { eapply Permutation_in; [apply Permutation_sym; exact HP | now left]. }
      destruct Hb as [E | Hb]; auto. exfalso.
      inversion ND as [| x xs NI ND']; subst.
      assert (Kb : In (fst b) (keys t1)) by (apply in_map; exact Hb).
      assert (Lab : (fst a <=? fst b) = true).
      { simpl in S1. apply sorted_head_least in S1.
        rewrite Forall_forall in S1. auto. }
      assert (Ha : In a (b :: t2)).
      { eapply Permutation_in; [exact HP | now left]. }
      destruct Ha as [E | Ha]; [subst; auto |].
      assert (Lba : (fst b <=? fst a) = true).
      { simpl in S2. apply sorted_head_least in S2.
        rewrite Forall_forall in S2. apply S2. apply in_map. exact Ha. }
      pose proof (String.leb_antisym _ _ Lab Lba) as Ek.
      rewrite Ek in NI. auto. }
    subst b. f_equal. apply IH.
    + eapply sorted_tail; exact S1.
    + eapply sorted_tail; exact S2.
    + eapply Permutation_cons_inv; exact HP.
    + now inversion ND.
Qed.

Lemma sorted_by_key_order_independent (l1 l2 : dict) :
  Permutation l1 l2 -> NoDup (keys l1) -> sorted_by_key l1 = sorted_by_key l2.
Proof.
  intros HP ND. apply sorted_unique; try apply sorted_by_key_sorted.
  - rewrite !sorted_by_key_perm. exact HP.
  - eapply Permutation_NoDup; [| exact ND].
    apply Permutation_map, Permutation_sym, sorted_by_key_perm.
Qed.

(** *** On values *)

Lemma sort_binding_key kv : fst (sort_binding kv) = fst kv.
Proof. reflexivity. Qed.

Lemma sort_value_dict d :
  sort_value (VDict d) = VDict (sorted_by_key (map sort_binding d)).
Proof. reflexivity. Qed.

Lemma nested_sort_eq d : nested_sort d = sorted_by_key (map sort_binding d).
Proof. reflexivity. Qed.

Lemma sort_value_idem v : sort_value (sort_value v) = sort_value v.
Proof.
  induction v as [| | | | l _ | d IH] using value_ind; auto.
  rewrite !sort_value_dict.
  rewrite sorted_by_key_map by apply sort_binding_key.
  rewrite sorted_by_key_idem. do 2 f_equal.
  rewrite map_map. apply map_ext_Forall.
  eapply Forall_impl; [| exact IH].
  intros [k x] Hx. unfold sort_binding. simpl in *. now rewrite Hx.
Qed.

Lemma sort_value_deep_sorted v : deep_sorted (sort_value v) = true.
Proof.
  induction v as [| | | | l _ | d IH] using value_ind; auto.
  rewrite sort_value_dict. simpl. apply andb_true_iff. split.
  - apply (sorted_by_key_sorted (map sort_binding d)).
  - apply forallb_forall. intros kv HIn.
    apply (Permutation_in _ (sorted_by_key_perm _)) in HIn.
    apply in_map_iff in HIn as (kv0 & <- & HIn0).
    rewrite Forall_forall in IH. simpl. now apply IH.
Qed.

Lemma reordered_ind (P : value -> value -> Prop)
  (Hsame : forall v, P v v)
  (Hdict : forall d1 d2 d2',
      Forall2 (fun a b => fst a = fst b /\ P (snd a) (snd b)) d1 d2' ->
      Permutation d2' d2 -> P (VDict d1) (VDict d2)) :
  forall v1 v2, reordered v1 v2 -> P v1 v2.
Proof.
  fix IH 3. intros v1 v2 [v | d1 d2 d2' HF HP].
  - apply Hsame.
  - apply (Hdict d1 d2 d2'); [clear HP | exact HP].
    induction HF as [| a b l l' [E R] HF IHF]; constructor.
    + split; [exact E | apply IH; exact R].
    + exact IHF.
Qed.

Lemma sort_value_reordered v1 v2 :
  reordered v1 v2 -> wf_value v1 = true -> sort_value v1 = sort_value v2.
Proof.
  intros R. induction R as [v | d1 d2 d2' HF HP] using reordered_ind; auto.
  intros W. simpl in W. apply andb_true_iff in W as [W1 W2].
  rewrite !sort_value_dict. f_equal.
  assert (E : map sort_binding d1 = map sort_binding d2').
  { clear HP W1. induction HF as [| a b l l' [Ek Ev] HF IHF]; simpl; auto.
    simpl in W2. apply andb_true_iff in W2 as [Wa Wl].
    rewrite (IHF Wl). unfold sort_binding. now rewrite Ek, (Ev Wa). }
  rewrite E. apply sorted_by_key_order_independent.
  - now apply Permutation_map.
  - rewrite <- E. unfold keys. rewrite map_map. simpl.
    now apply nodupb_NoDup.
Qed.

End Sorting.

(** C7, as stated, fails: a mapping held in a sequence is inside the input
    mapping and is left unsorted, and two inputs that differ in the
    insertion order of such a mapping only do not sort to the same output. *)
Lemma mapping_in_sequence_counterexample :
  nested_sort listed_mapping =
    [ ("a", VList [VDict [("z", VNum 1); ("c", VNum 2)]]); ("b", VNum 1) ] /\
  all_sorted (VDict (nested_sort listed_mapping)) = false /\
  nested_sort listed_mapping <> nested_sort listed_mapping'.
Proof. repeat split. discriminate. Qed.

(** C7, as amended.  [nested_sort] sorts the mapping and every mapping
    reached through mapping values; it is idempotent; two mappings with
    the same bindings, entered in another order at the mapping or at mappings
    reached through mapping values, sort to the same output; and a sequence
    bound to a key is still bound to it as it was, the mappings it holds
    included. *)
Theorem nested_sort_canonical :
  forall data : dict,
    deep_sorted (VDict (nested_sort data)) = true /\
    nested_sort (nested_sort data) = nested_sort data /\
    (forall data' : dict,
        wf_dict data = true ->
        reordered (VDict data) (VDict data') ->
        nested_sort data = nested_sort data') /\
    (forall (k : string) (l : list value),
        In (k, VList l) data -> In (k, VList l) (nested_sort data)).
Proof.
  intros data. split; [| split; [| split]].
  - apply (sort_value_deep_sorted (VDict data)).
  - pose proof (sort_value_idem (VDict data)) as H.
    rewrite !sort_value_dict in H. now injection H.
  - intros data' W R.
    pose proof (sort_value_reordered _ _ R W) as H.
    rewrite !sort_value_dict in H. now injection H.
  - intros k l HIn. rewrite nested_sort_eq.
    apply (Permutation_in _ (Permutation_sym (sorted_by_key_perm _))).
    apply (in_map sort_binding) in HIn. exact HIn.
Qed.

(** * Instances *)


Lemma redaction_drops_network_state_witness :
  nodupb (keys ethernet_record) = true /\
  redact "@odata.type" ethernet_path ethernet_record = OK ethernet_redacted /\
  ((forall k, In k always_drop -> dict_get k (values ethernet_redacted) = None) /\
   (forall k, In k drop_if_nonempty ->
      dict_get k (values ethernet_redacted) = keep_if_falsy (dict_get k ethernet_record)) /\
   (forall k l, In k drop_if_nonempty -> dict_get k ethernet_record = Some (VList l) ->
      (dict_get k (values ethernet_redacted) = None <-> l <> []) /\
      (l = [] -> dict_get k (values ethernet_redacted) = Some (VList [])))).
Proof.
  split; [reflexivity |]. split; [reflexivity |].
  apply (redaction_drops_network_state "@odata.type" ethernet_path ethernet_record
           ethernet_redacted); reflexivity.
Defined.

Lemma redaction_scrubs_dns_fields_witness :
  nodupb (keys ethernet_record) = true /\
  redact "@odata.type" ethernet_path ethernet_record = OK ethernet_redacted /\
  In "IPv4" dns_blocks /\ In "DNSServers" dns_fields /\
  dict_get "IPv4" ethernet_record =
    Some (VDict [("DNSServers", VList [VStr "10.0.0.1"]); ("Enabled", VBool true)]) /\
  ((exists blk', dict_get "IPv4" (values ethernet_redacted) = Some (VDict blk') /\
                 dict_get "DNSServers" blk' = None) /\
   lookup_path (mirror_path "IPv4" "DNSServers") (VDict ethernet_record) <> None /\
   lookup_path (mirror_path "IPv4" "DNSServers") (VDict (values ethernet_redacted)) = None).
Proof.
  split; [reflexivity |]. split; [reflexivity |].
  split; [simpl; tauto |]. split; [simpl; tauto |]. split; [reflexivity |].
  apply (redaction_scrubs_dns_fields "@odata.type" ethernet_path ethernet_record
           ethernet_redacted "IPv4" "DNSServers"
           [("DNSServers", VList [VStr "10.0.0.1"]); ("Enabled", VBool true)]);
    try reflexivity; simpl; tauto.
Defined.

Lemma redaction_raises_without_mirror_witness :
  mapping_shaped oemless_record = true /\
  (forall path, exists e,
      redact (typestring redfish) path oemless_record = Raise e /\
      lookup_error e /\ core_error e = false /\
      (mapping_shaped oemless_record = true -> e = KeyError)) /\
  (forall rest idx,
      locate_identity redfish (oemless_record :: rest) = OK idx ->
      exists e,
        saveworkerfunction redfish (oemless_record :: rest) = Raise e /\
        lookup_error e /\ core_error e = false /\
        (mapping_shaped oemless_record = true -> e = KeyError)).
Proof.
  split; [reflexivity |].
  apply (redaction_raises_without_mirror redfish oemless_record "IPv4" "DNSServers"
           [("DNSServers", VList [VStr "10.0.0.1"])]);
    try reflexivity; simpl; tauto.
Defined.

Lemma redaction_idempotent_witness :
  redact "@odata.type" ethernet_path ethernet_record = OK ethernet_redacted /\
  exists s2, redact "@odata.type" VNone (values ethernet_redacted) = OK s2 /\
             values s2 = values ethernet_redacted.
Proof.
  split; [reflexivity |].
  apply (redaction_idempotent "@odata.type" ethernet_path VNone ethernet_record
           ethernet_redacted).
  reflexivity.
Defined.

Lemma identity_in_emitted_properties_witness :
  saveworkerfunction redfish [bios_record] = OK [bios_entry] /\
  (Forall (fun e => dict_get (typestring redfish) (e_props e) = None) [bios_entry] /\
   (forall idx,
      index_by (top_identity redfish) [bios_record] = OK idx ->
      hrefstring redfish <> typestring redfish ->
      plain_field (hrefstring redfish) = true ->
      Forall (fun e => dict_get (hrefstring redfish) (e_props e) = Some (e_path e))
        [bios_entry])).
Proof.
  split; [reflexivity |].
  apply (identity_in_emitted_properties redfish [bios_record] [bios_entry]).
  reflexivity.
Defined.

Lemma corruption_error_characterised_witness :
  forallb (lookup_typed (top_identity redfish)) [bios_record; legacy_record] = true /\
  forallb (lookup_typed (nested_identity redfish)) [bios_record; legacy_record] = true /\
  existsb (lacks (top_identity redfish)) [bios_record; legacy_record] = true /\
  existsb (lacks (nested_identity redfish)) [bios_record; legacy_record] = true /\
  saveworkerfunction redfish [bios_record; legacy_record] = Raise iLORisCorruptionError /\
  forallb (located (top_identity redfish)) [bios_record; ethernet_record] = true /\
  saveworkerfunction redfish [bios_record; ethernet_record] <> Raise iLORisCorruptionError.
Proof.
  do 4 (split; [reflexivity |]).
  split.
  - apply (proj1 (proj2 (corruption_error_characterised redfish
                           [bios_record; legacy_record]))); reflexivity.
  - split; [reflexivity |].
    apply (proj2 (proj2 (corruption_error_characterised redfish
                           [bios_record; ethernet_record]))).
    left. reflexivity.
Defined.

Lemma assembly_header_first_witness :
  Exists (fun pass => pass <> []) ([bios_entry] :: [[]; [nic_entry]]) /\
  assemble [] [bios_entry] [[]; [nic_entry]] =
    OK [Header []; Item bios_entry; Item nic_entry] /\
  (assemble [] [] [[]; []] = Raise NothingSelectedError <->
     Forall (fun pass : list entry => pass = []) ([] :: [[]; []])).
Proof.
  assert (E : Exists (fun pass : list entry => pass <> []) ([bios_entry] :: [[]; [nic_entry]])).
  { apply Exists_cons_hd. discriminate. }
  split; [exact E |]. split.
  - apply (proj1 (proj2 (assembly_header_first [] [bios_entry] [[]; [nic_entry]])) E).
  - apply (proj1 (assembly_header_first [] [] [[]; []])).
Defined.

Lemma failed_save_writes_no_data_witness :
  run redfish [] [bios_record] [] (fun _ => Raise ValueError) (Some "previous save")
    = (Raise ValueError, Some "") /\
  ((collect redfish [] [bios_record] [] = Raise ValueError /\
    Some "" = Some "previous save") \/
   (exists contents,
       collect redfish [] [bios_record] [] = OK contents /\
       (fun _ : list item => @Raise string ValueError) contents = Raise ValueError /\
       Some "" = Some "")).
Proof.
  split; [reflexivity |].
  apply (failed_save_writes_no_data redfish [] [bios_record] []
           (fun _ => Raise ValueError) (Some "previous save") (Some "") ValueError).
  reflexivity.
Defined.

Lemma nested_sort_canonical_witness :
  wf_dict shuffled = true /\
  reordered (VDict shuffled) (VDict shuffled') /\
  nested_sort shuffled = nested_sort shuffled' /\
  nested_sort shuffled = [ ("a", VDict [("c", VNum 2); ("z", VNum 1)]); ("b", VNum 1) ].
Proof.
  assert (R : reordered (VDict shuffled) (VDict shuffled')).
  { apply (reordered_dict shuffled shuffled'
             [ ("b", VNum 1); ("a", VDict [("c", VNum 2); ("z", VNum 1)]) ]).
    - constructor; [split; [reflexivity | apply reordered_same] |].
      constructor; [| constructor]. split; [reflexivity |].
      apply (reordered_dict _ _ [("z", VNum 1); ("c", VNum 2)]).
      + constructor; [split; [reflexivity | apply reordered_same] |].
        constructor; [split; [reflexivity | apply reordered_same] | constructor].
      + apply perm_swap.
    - apply perm_swap. }
  split; [reflexivity |]. split; [exact R |]. split; [| reflexivity].
  apply (proj1 (proj2 (proj2 (nested_sort_canonical shuffled))) shuffled');
    [reflexivity | exact R].
Defined.

(** * Further properties *)

(** ** The key loop only removes *)

(** What holds of every relation that the deletion of a key and the
    replacement of a binding by a related one keep. *)
Section Removal.

Variable R : value -> value -> Prop.
Hypothesis R_refl : forall d, R (VDict d) (VDict d).
Hypothesis R_trans : forall v1 v2 v3, R v3 v2 -> R v2 v1 -> R v3 v1.
Hypothesis R_del : forall k d, R (VDict (dict_del k d)) (VDict d).
Hypothesis R_set : forall k x x' d,
  dict_get k d = Some x -> R x' x -> R (VDict (dict_set k x' d)) (VDict d).

Variable type_string : string.
Variable path : value.

Lemma delitem_R k v v' : delitem v k = OK v' -> R v' v.
Proof.
  intros H. apply delitem_OK in H as (d & -> & _ & ->). apply R_del.
Qed.

Lemma update_at_R k f v v' :
  (forall x x', f x = OK x' -> R x' x) -> update_at k f v = OK v' -> R v' v.
Proof.
  intros Hf H. apply update_at_OK in H as (d & x & x' & -> & G & Hx & ->).
  eapply R_set; eauto.
Qed.

Lemma update_top_R k f vals vals' :
  (forall x x', f x = OK x' -> R x' x) ->
  update_top k f vals = OK vals' -> R (VDict vals') (VDict vals).
Proof.
  intros Hf H. apply update_top_OK in H as (x & x' & G & Hx & ->).
  eapply R_set; eauto.
Qed.

Lemma del_top_R k vals vals' :
  del_top k vals = OK vals' -> R (VDict vals') (VDict vals).
Proof. intros H. apply del_top_OK in H as [_ ->]. apply R_del. Qed.

Lemma scrub_dns_R k field vals vals' :
  scrub_dns k field vals = OK vals' -> R (VDict vals') (VDict vals).
Proof.
  unfold scrub_dns. intros H.
  apply bind_OK in H as (blk & _ & H). apply bind_OK in H as (c & _ & H).
  destruct c; [| injection H as <-; apply R_refl].
  apply bind_OK in H as (vals1 & H1 & H).
  eapply R_trans.
  - unfold del_mirror in H. eapply update_top_R; [| exact H].
    intros x x'. apply update_at_R.
    intros y y'. apply update_at_R.
    intros z z'. apply delitem_R.
  - eapply update_top_R; [| exact H1]. intros x x'. apply delitem_R.
Qed.

Lemma process_entry_R k s s' :
  process_entry type_string path k s = OK s' ->
  R (VDict (values s')) (VDict (values s)).
Proof.
  unfold process_entry. intros H.
  apply bind_OK in H as (s1 & H1 & H). apply bind_OK in H as (v2 & H2 & H).
  apply bind_OK in H as (v3 & H3 & H). apply bind_OK in H as (v4 & H4 & H).
  injection H as <-. cbn [values with_values].
  assert (A1 : R (VDict (values s1)) (VDict (values s))).
  { unfold take_type in H1. destruct (k =? type_string).
    - apply bind_OK in H1 as (v & _ & H1). apply bind_OK in H1 as (d & Hd & H1).
      injection H1 as <-. simpl. eapply del_top_R; eauto.
    - injection H1 as <-. apply R_refl. }
  assert (A2 : R (VDict v2) (VDict (values s1))).
  { unfold drop_always in H2. destruct (mem_str k always_drop).
    - eapply del_top_R; eauto.
    - injection H2 as <-. apply R_refl. }
  assert (A3 : R (VDict v3) (VDict v2)).
  { unfold drop_static in H3. destruct (mem_str k drop_if_nonempty).
    - apply bind_OK in H3 as (v & _ & H3). destruct (truthy v).
      + eapply del_top_R; eauto.
      + injection H3 as <-. apply R_refl.
    - injection H3 as <-. apply R_refl. }
  assert (A4 : R (VDict v4) (VDict v3)).
  { unfold drop_dns in H4. destruct (mem_str k dns_blocks).
    - apply bind_OK in H4 as (w & Hw1 & Hw2).
      eapply R_trans; eapply scrub_dns_R; eauto.
    - injection H4 as <-. apply R_refl. }
  eauto using R_trans.
Qed.

Lemma process_keys_R ks s s' :
  process_keys type_string path ks s = OK s' ->
  R (VDict (values s')) (VDict (values s)).
Proof.
  revert s. induction ks as [| k ks IH]; simpl; intros s H.
  - injection H as <-. apply R_refl.
  - apply bind_OK in H as (s1 & H1 & H).
    eapply R_trans; [eapply IH; eauto | eapply process_entry_R; eauto].
Qed.

End Removal.

Lemma pruned_refl v : pruned v v.
Proof. intros p x' H. exists x'. auto. Qed.

Lemma pruned_trans v1 v2 v3 : pruned v3 v2 -> pruned v2 v1 -> pruned v3 v1.
Proof.
  intros H32 H21 p x3 H3.
  destruct (H32 p x3 H3) as (x2 & H2 & E2 & N2).
  destruct (H21 p x2 H2) as (x1 & H1 & E1 & N1).
  exists x1. split; [exact H1 |]. split; [congruence |].
  intros N. rewrite (N2 N). apply N1. rewrite <- E2. exact N.
Qed.

Lemma pruned_del k d : pruned (VDict (dict_del k d)) (VDict d).
Proof.
  intros [| k' p] x' H; simpl in *.
  - injection H as <-. exists (VDict d). repeat split; auto. discriminate.
  - destruct (String.eqb_spec k' k) as [-> | N].
    + rewrite dict_get_del_eq in H. discriminate.
    + rewrite dict_get_del_neq in H by auto.
      destruct (dict_get k' d); [| discriminate]. exists x'. auto.
Qed.

Lemma pruned_set k x x' d :
  dict_get k d = Some x -> pruned x' x ->
  pruned (VDict (dict_set k x' d)) (VDict d).
Proof.
  intros G S [| k' p] y' H; simpl in *.
  - injection H as <-. exists (VDict d). repeat split; auto. discriminate.
  - destruct (String.eqb_spec k' k) as [-> | N].
    + rewrite dict_get_set_eq in H. rewrite G. auto.
    + rewrite dict_get_set_neq in H by auto.
      destruct (dict_get k' d); [| discriminate]. exists y'. auto.
Qed.

(** X1.  The pass never rewrites what it keeps: whenever it completes,
    every path that resolves in the resulting mapping resolved in the record,
    to the very same value when that is not a mapping and to a mapping when
    it is one. *)
Theorem redaction_only_removes :
  forall (type_string : string) (path : value) (vals : dict) (s' : locals),
    redact type_string path vals = OK s' ->
    forall p x', lookup_path p (VDict (values s')) = Some x' ->
      exists x, lookup_path p (VDict vals) = Some x /\
                is_dict x' = is_dict x /\ (is_dict x' = false -> x' = x).
Proof.
  intros ts path vals s' H. unfold redact in H.
  exact (process_keys_R pruned (fun d => pruned_refl (VDict d)) pruned_trans
           pruned_del pruned_set ts path _ _ _ H).
Qed.

Lemma redaction_only_removes_witness :
  redact "@odata.type" ethernet_path ethernet_record = OK ethernet_redacted /\
  forall p x', lookup_path p (VDict (values ethernet_redacted)) = Some x' ->
    exists x, lookup_path p (VDict ethernet_record) = Some x /\
              is_dict x' = is_dict x /\ (is_dict x' = false -> x' = x).
Proof.
  split; [reflexivity |].
  apply (redaction_only_removes "@odata.type" ethernet_path ethernet_record
           ethernet_redacted).
  reflexivity.
Defined.

(** ** Which keys the loop keeps *)

Lemma filter_all {A : Type} (l : list A) : filter (fun _ => true) l = l.
Proof. induction l; simpl; congruence. Qed.

Lemma filter_twice {A : Type} (f g : A -> bool) (l : list A) :
  filter f (filter g l) = filter (fun x => g x && f x) l.
Proof.
  induction l as [| a l IH]; simpl; auto.
  destruct (g a); simpl; [destruct (f a) |]; now rewrite IH.
Qed.

Lemma keys_del k d : keys (dict_del k d) = filter (fun k' => negb (k =? k')) (keys d).
Proof.
  induction d as [| [k' v] r IH]; simpl; auto.
  destruct (k =? k'); simpl; now rewrite IH.
Qed.

Lemma keys_set k x x' d : dict_get k d = Some x -> keys (dict_set k x' d) = keys d.
Proof.
  induction d as [| [k' v] r IH]; simpl; [discriminate |].
  destruct (String.eqb_spec k k') as [-> | N]; simpl; auto.
  intros G. now rewrite IH.
Qed.

Lemma keys_kept_refl d : keys_kept (VDict d) (VDict d).
Proof. exists d, d, (fun _ => true). now rewrite filter_all. Qed.

Lemma keys_kept_trans v1 v2 v3 : keys_kept v3 v2 -> keys_kept v2 v1 -> keys_kept v3 v1.
Proof.
  intros (d3 & d2 & f & -> & -> & E32) (d2' & d1 & g & [= <-] & -> & E21).
  exists d3, d1, (fun k => g k && f k).
  now rewrite E32, E21, filter_twice.
Qed.

Lemma keys_kept_del k d : keys_kept (VDict (dict_del k d)) (VDict d).
Proof. exists (dict_del k d), d, (fun k' => negb (k =? k')). now rewrite keys_del. Qed.

Lemma keys_kept_set k x x' d :
  dict_get k d = Some x -> keys_kept x' x ->
  keys_kept (VDict (dict_set k x' d)) (VDict d).
Proof.
  intros G _. exists (dict_set k x' d), d, (fun _ => true).
  now rewrite filter_all, (keys_set _ _ _ _ G).
Qed.

Lemma process_keys_keys_kept type_string path ks s s' :
  process_keys type_string path ks s = OK s' ->
  keys (values s') = filter (fun k => dict_mem k (values s')) (keys (values s)).
Proof.
  intros H.
  destruct (process_keys_R keys_kept keys_kept_refl keys_kept_trans keys_kept_del
              keys_kept_set type_string path _ _ _ H) as (d' & d & f & [= <-] & [= <-] & E).
  rewrite E. apply filter_ext_in. intros k Hk.
  unfold dict_mem. destruct (f k) eqn:F.
  - assert (HIn : In k (keys (values s'))) by (rewrite E; apply filter_In; auto).
    apply dict_get_keys in HIn. now destruct (dict_get k (values s')).
  - destruct (dict_get k (values s')) eqn:G; auto.
    assert (HIn : In k (keys (values s'))) by (apply dict_get_keys; congruence).
    rewrite E in HIn. apply filter_In in HIn as [_ HIn]. congruence.
Qed.

Lemma process_entry_keeps_self type_string path k s s' :
  process_entry type_string path k s = OK s' ->
  k <> type_string ->
  mem_str k always_drop = false -> mem_str k drop_if_nonempty = false ->
  dict_get k (values s) <> None -> dict_get k (values s') <> None.
Proof.
  unfold process_entry, take_type, drop_always, drop_static. intros H N A St P.
  apply String.eqb_neq in N. rewrite N, A, St in H. simpl in H.
  apply bind_OK in H as (v4 & H4 & H). injection H as <-. cbn [values with_values].
  unfold drop_dns in H4. destruct (mem_str k dns_blocks); [| congruence].
  apply bind_OK in H4 as (w & Hw1 & Hw2).
  eapply scrub_dns_keeps; [exact Hw2 |]. eapply scrub_dns_keeps; eauto.
Qed.

Lemma process_keys_keeps type_string path k ks s s' :
  process_keys type_string path ks s = OK s' ->
  k <> type_string ->
  mem_str k always_drop = false -> mem_str k drop_if_nonempty = false ->
  dict_get k (values s) <> None -> dict_get k (values s') <> None.
Proof.
  revert s. induction ks as [| j ks IH]; simpl; intros s H N A St P.
  - now injection H as <-.
  - apply bind_OK in H as (s1 & H1 & H). apply (IH s1 H N A St).
    destruct (string_dec j k) as [-> | Nj].
    + eapply process_entry_keeps_self; eauto.
    + eapply process_entry_keeps; eauto.
Qed.

(** X2.  Whenever the pass completes on a record, the keys left are the
    record's keys, in the record's order, without the type field, the
    always-drop fields and the static lists whose value is truthy; every
    other key is still there. *)
Theorem redaction_surviving_keys :
  forall (type_string : string) (path : value) (vals : dict) (s' : locals),
    nodupb (keys vals) = true ->
    redact type_string path vals = OK s' ->
    keys (values s') = filter (survives type_string vals) (keys vals).
Proof.
  intros ts path vals s' ND H.
  pose proof H as R. unfold redact in H.
  rewrite (process_keys_keys_kept _ _ _ _ _ H). simpl.
  apply filter_ext_in. intros k Hk.
  pose proof Hk as Hk'. apply dict_get_keys in Hk'.
  destruct (dict_get k vals) as [v |] eqn:G; [| congruence]. clear Hk'.
  assert (M : mem_str k (keys vals) = true) by (now apply mem_str_In).
  unfold survives. rewrite G.
  destruct (mem_str k drop_if_nonempty) eqn:St.
  - (* a static list: kept when falsy *)
    pose proof (process_keys_static _ _ k _ _ _ ND H St) as E.
    rewrite M in E. simpl in E. rewrite G in E. simpl in E.
    rewrite (static_not_always _ St). simpl.
    unfold dict_mem. rewrite E.
    destruct (truthy v) eqn:T; simpl.
    + now rewrite andb_false_r.
    + rewrite andb_true_r.
      destruct (String.eqb_spec k ts) as [-> | N]; auto.
      pose proof (redact_type_absent _ _ _ _ R) as A. congruence.
  - cbn [andb negb]. rewrite andb_true_r. unfold dict_mem.
    destruct (dict_get k (values s')) as [v' |] eqn:G'.
    + destruct (redact_settles _ _ _ _ k R v' G') as (N & A & _).
      apply String.eqb_neq in N. now rewrite N, A.
    + destruct (String.eqb_spec k ts) as [-> | N]; auto.
      destruct (mem_str k always_drop) eqn:A; auto. exfalso.
      apply (process_keys_keeps _ _ k _ _ _ H N A St); simpl; congruence.
Qed.

Lemma redaction_surviving_keys_witness :
  nodupb (keys ethernet_record) = true /\
  redact "@odata.type" ethernet_path ethernet_record = OK ethernet_redacted /\
  keys (values ethernet_redacted)
    = filter (survives "@odata.type" ethernet_record) (keys ethernet_record).
Proof.
  split; [reflexivity |]. split; [reflexivity |].
  apply (redaction_surviving_keys "@odata.type" ethernet_path ethernet_record
           ethernet_redacted); reflexivity.
Defined.

(** X3.  A field the loop has no rule for (not the type field, not in one
    of the three lists, not [Oem]) passes through: whenever the pass
    completes it holds the value it had, or is absent as it was. *)
Theorem redaction_passes_unknown_fields :
  forall (type_string : string) (path : value) (vals : dict) (s' : locals)
         (k : string),
    redact type_string path vals = OK s' ->
    k <> type_string ->
    plain_field k = true ->
    dict_get k (values s') = dict_get k vals.
Proof.
  intros ts path vals s' k H N Pl. unfold redact in H.
  exact (process_keys_plain _ _ _ _ _ _ H N Pl).
Qed.

Lemma redaction_passes_unknown_fields_witness :
  redact "@odata.type" ethernet_path ethernet_record = OK ethernet_redacted /\
  "HostName" <> "@odata.type" /\
  plain_field "HostName" = true /\
  dict_get "HostName" (values ethernet_redacted) = dict_get "HostName" ethernet_record.
Proof.
  split; [reflexivity |]. split; [discriminate |]. split; [reflexivity |].
  apply (redaction_passes_unknown_fields "@odata.type" ethernet_path ethernet_record
           ethernet_redacted "HostName"); [reflexivity | discriminate | reflexivity].
Defined.

(** ** When the pass completes *)

(** X4.  The pass over a record completes when the type field is one the
    loop has no rule for and every protocol block of the record is a mapping
    whose DNS sub-fields are all held by its mirror under [Oem.Hpe]. *)
Theorem redaction_completes_when_mirrored :
  forall (type_string : string) (path : value) (vals : dict),
    plain_field type_string = true ->
    nodupb (keys vals) = true ->
    mirrored vals ->
    exists s', redact type_string path vals = OK s'.
Proof.
  intros ts path vals Pl ND M. exact (redact_completes ts path Pl vals ND M).
Qed.

Lemma ethernet_record_mirrored : mirrored ethernet_record.
Proof.
  intros b Mb v G. cases_of_mem Mb; simpl in G; try discriminate;
    injection G as <-; eexists; (split; [reflexivity |]);
    intros f [<- | [<- | []]]; simpl; intros; discriminate.
Qed.

Lemma redaction_completes_when_mirrored_witness :
  plain_field "@odata.type" = true /\
  nodupb (keys ethernet_record) = true /\
  mirrored ethernet_record /\
  exists s', redact "@odata.type" ethernet_path ethernet_record = OK s'.
Proof.
  split; [reflexivity |]. split; [reflexivity |].
  split; [exact ethernet_record_mirrored |].
  apply (redaction_completes_when_mirrored "@odata.type" ethernet_path ethernet_record);
    [reflexivity | reflexivity | exact ethernet_record_mirrored].
Defined.

(** ** The entries of a completed extraction *)

Section EmittedEntries.

Variable type_string : string.

Lemma process_entry_typeselector path k s s' :
  process_entry type_string path k s = OK s' ->
  (k <> type_string /\ typeselector s' = typeselector s) \/
  (k = type_string /\ dict_get type_string (values s) = Some (typeselector s') /\
   dict_get type_string (values s') = None).
Proof.
  unfold process_entry. intros H.
  apply bind_OK in H as (s1 & H1 & H). apply bind_OK in H as (v2 & H2 & H).
  apply bind_OK in H as (v3 & H3 & H). apply bind_OK in H as (v4 & H4 & H).
  injection H as <-. cbn [values with_values typeselector].
  unfold take_type in H1. destruct (String.eqb_spec k type_string) as [-> | N].
  - right. apply bind_OK in H1 as (v & Hv & H1). apply bind_OK in H1 as (d & Hd & H1).
    injection H1 as <-. simpl in *. apply get_top_OK in Hv.
    apply del_top_OK in Hd as [_ ->]. repeat split; auto.
    eapply shrinks_absent; [eapply drop_dns_shrinks; eauto |].
    eapply shrinks_absent; [eapply drop_static_shrinks; eauto |].
    eapply shrinks_absent; [eapply drop_always_shrinks; eauto |].
    apply dict_get_del_eq.
  - left. injection H1 as <-. auto.
Qed.

Lemma process_keys_typeselector path ks s s' :
  process_keys type_string path ks s = OK s' ->
  type_string <> "Oem" ->
  typeselector s' = typeselector s \/
  dict_get type_string (values s) = Some (typeselector s').
Proof.
  revert s. induction ks as [| k ks IH]; simpl; intros s H NO.
  - injection H as <-. now left.
  - apply bind_OK in H as (s1 & H1 & H).
    destruct (process_entry_typeselector _ _ _ _ H1) as [(N & E) | (-> & G & A)].
    + destruct (IH _ H NO) as [E' | G']; [left; congruence | right].
      erewrite <- process_entry_frame; eauto.
    + destruct (IH _ H NO) as [E' | G']; [right; congruence |]. congruence.
Qed.

Lemma process_keys_no_type path ks s s' :
  process_keys type_string path ks s = OK s' ->
  dict_get type_string (values s) = None ->
  typeselector s' = typeselector s.
Proof.
  revert s. induction ks as [| k ks IH]; simpl; intros s H A.
  - now injection H as <-.
  - apply bind_OK in H as (s1 & H1 & H).
    destruct (process_entry_typeselector _ _ _ _ H1) as [(N & E) | (_ & G & _)];
      [| congruence].
    rewrite <- E. apply (IH _ H).
    eapply shrinks_absent; [eapply process_entry_shrinks; eauto | exact A].
Qed.

Lemma emit_built s tc tl tc' tl' :
  emit s tc tl = OK (tc', tl') -> values s <> [] ->
  truthy (typeselector s) = true /\ truthy (pathselector s) = true /\
  hashable (typeselector s) = true /\
  tc' = Some (entry_of s) /\ tl' = tl ++ [entry_of s].
Proof.
  unfold emit. intros H V. apply bind_OK in H as (x & Hx & H).
  destruct (values s) as [| kv r] eqn:E; [congruence |].
  destruct (truthy (typeselector s) && truthy (pathselector s)) eqn:T; [| discriminate].
  destruct (hashable (typeselector s)); [| discriminate].
  injection Hx as <-. injection H as <- <-.
  apply andb_true_iff in T as [T1 T2]. unfold entry_of. rewrite E. auto.
Qed.

Lemma emit_appends_one s tc tl tc' tl' :
  emit s tc tl = OK (tc', tl') -> exists e, tl' = tl ++ [e].
Proof.
  intros H. apply emit_OK in H as [(_ & _ & _ & ->) | (_ & e & _ & _ & ->)]; eauto.
Qed.

(** What is appended is an entry built for some record of the batch. *)
Lemma process_records_built (P : entry -> Prop) contents tc tl out :
  (forall p vals s, In (p, vals) contents ->
     redact type_string p vals = OK s -> values s <> [] ->
     truthy (typeselector s) = true -> truthy (pathselector s) = true ->
     hashable (typeselector s) = true -> P (entry_of s)) ->
  (forall e, tc = Some e -> P e) ->
  Forall P tl ->
  process_records type_string contents tc tl = OK out ->
  Forall P out.
Proof.
  revert tc tl. induction contents as [| [p vals] rest IH]; simpl; intros tc tl HP Htc Htl H.
  - now injection H as <-.
  - apply bind_OK in H as (s & Hs & H). apply bind_OK in H as ([tc' tl'] & He & H).
    simpl in H.
    assert (Pnew : (forall e, tc' = Some e -> P e) /\ Forall P tl').
    { destruct (values s) as [| kv r] eqn:V.
      - apply emit_OK in He as [(V' & _) | (_ & e & -> & -> & ->)]; [congruence |].
        split; [auto | apply Forall_app; auto].
      - assert (V' : values s <> []) by (rewrite V; discriminate).
        destruct (emit_built _ _ _ _ _ He V') as (T1 & T2 & Hh & -> & ->).
        assert (P (entry_of s)) by (eapply HP; eauto).
        split; [intros e [= <-]; auto | apply Forall_app; auto]. }
    destruct Pnew. eapply IH; eauto.
Qed.

Lemma process_records_length contents tc tl out :
  process_records type_string contents tc tl = OK out ->
  length out = length tl + length contents.
Proof.
  revert tc tl. induction contents as [| [p vals] rest IH]; simpl; intros tc tl H.
  - injection H as <-. lia.
  - apply bind_OK in H as (s & Hs & H). apply bind_OK in H as ([tc' tl'] & He & H).
    simpl in H. apply emit_appends_one in He as (e & ->).
    rewrite (IH _ _ H), length_app. simpl. lia.
Qed.

End EmittedEntries.

Lemma saveworkerfunction_built d content entries :
  saveworkerfunction d content = OK entries ->
  Forall (fun e => truthy (e_type e) = true /\ hashable (e_type e) = true /\
                   truthy (e_path e) = true /\ e_props e <> [] /\
                   dict_get (typestring d) (e_props e) = None) entries.
Proof.
  intros H. unfold saveworkerfunction in H.
  apply bind_OK in H as (contents & _ & H).
  eapply process_records_built; [| | | exact H]; auto; [| discriminate].
  intros p vals s _ R V T1 T2 Hh. simpl. repeat split; auto.
  eapply redact_type_absent; eauto.
Qed.

(** X5.  Every entry of a completed extraction has a truthy, hashable type
    selector, a truthy path and at least one property, and its properties do
    not hold the type field. *)
Theorem emitted_entries_have_identity :
  forall (d : defs) (content : list dict) (entries : list entry),
    saveworkerfunction d content = OK entries ->
    Forall (fun e => truthy (e_type e) = true /\ hashable (e_type e) = true /\
                     truthy (e_path e) = true /\ e_props e <> [] /\
                     dict_get (typestring d) (e_props e) = None) entries.
Proof.
  intros d content entries H. exact (saveworkerfunction_built d content entries H).
Qed.

Lemma emitted_entries_have_identity_witness :
  saveworkerfunction redfish [bios_record; ethernet_record]
    = OK [bios_entry; entry_of ethernet_redacted] /\
  Forall (fun e => truthy (e_type e) = true /\ hashable (e_type e) = true /\
                   truthy (e_path e) = true /\ e_props e <> [] /\
                   dict_get (typestring redfish) (e_props e) = None)
    [bios_entry; entry_of ethernet_redacted].
Proof.
  split; [reflexivity |].
  apply (emitted_entries_have_identity redfish [bios_record; ethernet_record]).
  reflexivity.
Defined.

(** X6.  A completed extraction returns as many entries as it was given
    records, whatever the records are. *)
Theorem extraction_preserves_count :
  forall (d : defs) (content : list dict) (entries : list entry),
    saveworkerfunction d content = OK entries ->
    length entries = length content.
Proof.
  intros d content entries H. unfold saveworkerfunction in H.
  apply bind_OK in H as (contents & HL & H).
  rewrite (process_records_length _ _ _ _ _ H). simpl.
  assert (A : forall ident idx, index_by ident content = OK idx ->
                                length idx = length content).
  { intros ident idx Hi. apply index_by_Forall2 in Hi.
    symmetry. eapply Forall2_length; eauto. }
  unfold locate_identity in HL.
  destruct (index_by (top_identity d) content) as [r | e] eqn:E1.
  - injection HL as <-. eauto.
  - destruct e; try discriminate.
    destruct (index_by (nested_identity d) content) as [r | e] eqn:E2.
    + injection HL as <-. eauto.
    + destruct e; discriminate.
Qed.

Lemma extraction_preserves_count_witness :
  saveworkerfunction redfish [bios_record; ethernet_record]
    = OK [bios_entry; entry_of ethernet_redacted] /\
  length [bios_entry; entry_of ethernet_redacted] = length [bios_record; ethernet_record].
Proof.
  split; [reflexivity |].
  apply (extraction_preserves_count redfish [bios_record; ethernet_record]). reflexivity.
Defined.

(** X7.  Under a top-level path field that the loop has no rule for, and
    a type field other than [Oem], a completed extraction gives one entry
    per record, in the order of the records: the entry's path and type are
    the values of the record's path and type fields, and its properties are
    what the pass leaves of the record. *)
Theorem extraction_one_entry_per_record :
  forall (d : defs) (content : list dict) (idx : list (value * dict))
         (entries : list entry),
    index_by (top_identity d) content = OK idx ->
    hrefstring d <> typestring d ->
    plain_field (hrefstring d) = true ->
    typestring d <> "Oem" ->
    saveworkerfunction d content = OK entries ->
    Forall2 (fun val e =>
               dict_get (hrefstring d) val = Some (e_path e) /\
               dict_get (typestring d) val = Some (e_type e) /\
               exists s, redact (typestring d) (e_path e) val = OK s /\
                         e_props e = values s) content entries.
Proof.
  intros d content idx entries HI N Pl NO H.
  pose proof (one_entry_per_record _ _ _ _ HI N Pl H) as F.
  pose proof (saveworkerfunction_built d content entries H) as T.
  clear H HI. induction F as [| val e c es (s & E1 & R & ->) F IHF]; constructor.
  - inversion T as [| x xs (Tx & _) _]; subst. simpl in *.
    unfold top_identity in E1. apply get_top_OK in E1.
    split; [exact E1 |]. split; [| exists s; auto].
    pose proof R as R'. unfold redact in R'.
    destruct (process_keys_typeselector _ _ _ _ _ R' NO) as [E | G]; auto.
    simpl in E. rewrite E in Tx. discriminate.
  - apply IHF. now inversion T.
Qed.

Lemma extraction_one_entry_per_record_witness :
  index_by (top_identity redfish) [bios_record; ethernet_record]
    = OK [(VStr "/redfish/v1/Bios/1", bios_record); (ethernet_path, ethernet_record)] /\
  saveworkerfunction redfish [bios_record; ethernet_record]
    = OK [bios_entry; entry_of ethernet_redacted] /\
  Forall2 (fun val e =>
             dict_get (hrefstring redfish) val = Some (e_path e) /\
             dict_get (typestring redfish) val = Some (e_type e) /\
             exists s, redact (typestring redfish) (e_path e) val = OK s /\
                       e_props e = values s)
    [bios_record; ethernet_record] [bios_entry; entry_of ethernet_redacted].
Proof.
  split; [reflexivity |]. split; [reflexivity |].
  apply (extraction_one_entry_per_record redfish [bios_record; ethernet_record]
           [(VStr "/redfish/v1/Bios/1", bios_record); (ethernet_path, ethernet_record)]);
    try reflexivity; discriminate.
Defined.

(** X8.  A first record that keeps some property after the pass but whose
    type field is missing or falsy, or whose path is falsy, makes extraction
    raise InvalidFileFormattingError. *)
Theorem record_without_identity_is_rejected :
  forall (d : defs) (vals : dict) (rest : list dict) (p : value)
         (tl : list (value * dict)) (s : locals),
    locate_identity d (vals :: rest) = OK ((p, vals) :: tl) ->
    redact (typestring d) p vals = OK s ->
    values s <> [] ->
    typestring d <> "Oem" ->
    dict_get (typestring d) vals = None \/
    (exists v, dict_get (typestring d) vals = Some v /\ truthy v = false) \/
    truthy p = false ->
    saveworkerfunction d (vals :: rest) = Raise InvalidFileFormattingError.
Proof.
  intros d vals rest p tl s HL R V NO C.
  unfold saveworkerfunction. rewrite HL. simpl. rewrite R. simpl.
  rewrite (emit_without_identity s None [] V); [reflexivity |].
  pose proof R as R'. unfold redact in R'.
  destruct C as [A | [(v & G & T) | T]].
  - rewrite (process_keys_no_type _ _ _ _ _ R' A). reflexivity.
  - destruct (process_keys_typeselector _ _ _ _ _ R' NO) as [E | G'].
    + rewrite E. reflexivity.
    + simpl in G'. rewrite G in G'. injection G' as <-. now rewrite T.
  - destruct (process_keys_pathselector _ _ _ _ _ R') as [E | E]; rewrite E; simpl.
    + rewrite T. apply andb_false_r.
    + apply andb_false_r.
Qed.

Lemma record_without_identity_is_rejected_witness :
  locate_identity redfish [[("@odata.id", VStr "/redfish/v1/Bios/1"); ("AttributeX", VNum 1)]]
    = OK [(VStr "/redfish/v1/Bios/1",
           [("@odata.id", VStr "/redfish/v1/Bios/1"); ("AttributeX", VNum 1)])] /\
  saveworkerfunction redfish
    [[("@odata.id", VStr "/redfish/v1/Bios/1"); ("AttributeX", VNum 1)]]
    = Raise InvalidFileFormattingError.
Proof.
  split; [reflexivity |].
  apply (record_without_identity_is_rejected redfish
           [("@odata.id", VStr "/redfish/v1/Bios/1"); ("AttributeX", VNum 1)] []
           (VStr "/redfish/v1/Bios/1") []
           {| typeselector := VNone; pathselector := VNone;
              values := [("@odata.id", VStr "/redfish/v1/Bios/1"); ("AttributeX", VNum 1)] |});
    try reflexivity; try discriminate.
  left. reflexivity.
Defined.

(** ** Identity lookup *)

Lemma index_by_spec ident content idx :
  index_by ident content = OK idx ->
  map snd idx = content /\
  Forall (fun pv => ident (snd pv) = OK (fst pv) /\ hashable (fst pv) = true) idx.
Proof.
  revert idx. induction content as [| r rest IH]; simpl; intros idx H.
  - injection H as <-. auto.
  - apply bind_OK in H as (q & Hq & H). destruct (hashable q) eqn:Hh; [| discriminate].
    apply bind_OK in H as (tl & Htl & H). injection H as <-.
    destruct (IH _ Htl) as [E F]. simpl. split; [now rewrite E | constructor; auto].
Qed.

(** X9.  When the identities of a batch are located, the records come back
    in their order, each with a hashable path, and all paths come from the
    same convention: the top-level field for every record, or, when some
    record lacks that field, the field under links/self for every record. *)
Theorem identity_convention_is_uniform :
  forall (d : defs) (content : list dict) (idx : list (value * dict)),
    locate_identity d content = OK idx ->
    map snd idx = content /\
    (Forall (fun pv => top_identity d (snd pv) = OK (fst pv) /\
                       hashable (fst pv) = true) idx \/
     (existsb (lacks (top_identity d)) content = true /\
      Forall (fun pv => nested_identity d (snd pv) = OK (fst pv) /\
                        hashable (fst pv) = true) idx)).
Proof.
  intros d content idx H. unfold locate_identity in H.
  destruct (index_by (top_identity d) content) as [r | e] eqn:E1.
  - injection H as <-. destruct (index_by_spec _ _ _ E1). auto.
  - destruct e; try discriminate.
    destruct (index_by (nested_identity d) content) as [r | e] eqn:E2.
    + injection H as <-. destruct (index_by_spec _ _ _ E2).
      split; auto. right. split; auto. now apply index_by_KeyError.
    + destruct e; discriminate.
Qed.

Lemma identity_convention_is_uniform_witness :
  locate_identity redfish [legacy_record]
    = OK [(VStr "/redfish/v1/Systems/1", legacy_record)] /\
  (map snd [(VStr "/redfish/v1/Systems/1", legacy_record)] = [legacy_record] /\
   (Forall (fun pv => top_identity redfish (snd pv) = OK (fst pv) /\
                      hashable (fst pv) = true)
      [(VStr "/redfish/v1/Systems/1", legacy_record)] \/
    (existsb (lacks (top_identity redfish)) [legacy_record] = true /\
     Forall (fun pv => nested_identity redfish (snd pv) = OK (fst pv) /\
                       hashable (fst pv) = true)
       [(VStr "/redfish/v1/Systems/1", legacy_record)]))).
Proof.
  split; [reflexivity |].
  apply (identity_convention_is_uniform redfish [legacy_record]). reflexivity.
Defined.

(** ** The exceptions of extraction *)

Lemma emit_Raise_cases s tc tl e :
  emit s tc tl = Raise e ->
  e = TypeError \/ e = InvalidFileFormattingError \/ e = UnboundLocalError.
Proof.
  unfold emit. intros H. apply bind_Raise in H as [H | (x & _ & H)].
  - destruct (values s); [discriminate |].
    destruct (truthy (typeselector s) && truthy (pathselector s));
      [destruct (hashable (typeselector s)) |]; try discriminate;
      injection H as <-; auto.
  - destruct x; [discriminate |]. injection H as <-. auto.
Qed.

Lemma process_records_Raise_cases ts contents tc tl e :
  process_records ts contents tc tl = Raise e ->
  lookup_error e \/ e = InvalidFileFormattingError \/ e = UnboundLocalError.
Proof.
  revert tc tl. induction contents as [| [p vals] rest IH]; simpl; intros tc tl H.
  - discriminate.
  - apply bind_Raise in H as [H | (s & _ & H)].
    { left. eapply process_keys_Raise; eauto. }
    apply bind_Raise in H as [H | (st & _ & H)]; [| eauto].
    apply emit_Raise_cases in H as [-> | [-> | ->]]; auto. left. now right.
Qed.

Lemma saveworkerfunction_Raise_cases d content e :
  saveworkerfunction d content = Raise e ->
  lookup_error e \/ e = iLORisCorruptionError \/
  e = InvalidFileFormattingError \/ e = UnboundLocalError.
Proof.
  unfold saveworkerfunction. intros H.
  apply bind_Raise in H as [H | (c & _ & H)].
  - unfold locate_identity in H.
    destruct (index_by (top_identity d) content) as [| e1] eqn:E1; [discriminate |].
    pose proof (index_by_Raise _ _ _ (top_identity_Raise d) E1) as L1.
    destruct e1; try (injection H as <-; auto).
    destruct (index_by (nested_identity d) content) as [| e2] eqn:E2; [discriminate |].
    pose proof (index_by_Raise _ _ _ (nested_identity_Raise d) E2) as L2.
    destruct e2; injection H as <-; auto.
  - apply process_records_Raise_cases in H as [L | [-> | ->]]; auto.
Qed.

(** ** [nested_sort] keeps the bindings *)

Lemma dict_get_In k v (d : dict) :
  NoDup (keys d) -> In (k, v) d -> dict_get k d = Some v.
Proof.
  induction d as [| [k' v'] r IH]; simpl; intros ND HIn; [destruct HIn |].
  inversion ND as [| x xs NI ND']; subst.
  destruct HIn as [[= -> ->] | HIn].
  - now rewrite String.eqb_refl.
  - destruct (String.eqb_spec k k') as [-> | N]; auto.
    exfalso. apply NI. apply (in_map fst) in HIn. exact HIn.
Qed.

Lemma dict_get_Some_In k v (d : dict) : dict_get k d = Some v -> In (k, v) d.
Proof.
  induction d as [| [k' v'] r IH]; simpl; [discriminate |].
  destruct (String.eqb_spec k k') as [-> | N]; [intros [= ->]; auto | auto].
Qed.

Lemma dict_get_perm k (d1 d2 : dict) :
  Permutation d1 d2 -> NoDup (keys d1) -> dict_get k d1 = dict_get k d2.
Proof.
  intros HP ND.
  assert (ND2 : NoDup (keys d2)).
  { eapply Permutation_NoDup; [| exact ND]. now apply Permutation_map. }
  destruct (dict_get k d1) as [v |] eqn:G1.
  - symmetry. apply dict_get_In; auto.
    eapply Permutation_in; [exact HP |]. now apply dict_get_Some_In.
  - destruct (dict_get k d2) as [v |] eqn:G2; auto.
    apply dict_get_Some_In in G2.
    apply (Permutation_in _ (Permutation_sym HP)) in G2.
    apply (dict_get_In _ _ _ ND) in G2. congruence.
Qed.

Lemma dict_get_sort_binding k d :
  dict_get k (map sort_binding d) = option_map sort_value (dict_get k d).
Proof.
  induction d as [| [k' v] r IH]; simpl; auto.
  destruct (k =? k'); auto.
Qed.

(** X11.  Sorting neither drops nor adds a binding: on a mapping with
    unique keys, the result has the same keys, and each key is bound to the
    value it had, sorted if that is a mapping and untouched otherwise. *)
Theorem nested_sort_keeps_bindings :
  forall (data : dict),
    nodupb (keys data) = true ->
    Permutation (keys (nested_sort data)) (keys data) /\
    (forall k, dict_get k (nested_sort data) = option_map sort_value (dict_get k data)) /\
    (forall k v, dict_get k data = Some v -> is_dict v = false ->
                 dict_get k (nested_sort data) = Some v).
Proof.
  intros data ND.
  assert (P : Permutation (nested_sort data) (map sort_binding data)).
  { rewrite nested_sort_eq. apply sorted_by_key_perm. }
  assert (K : keys (map sort_binding data) = keys data).
  { unfold keys. rewrite map_map. reflexivity. }
  assert (G : forall k, dict_get k (nested_sort data)
                        = option_map sort_value (dict_get k data)).
  { intros k. rewrite <- dict_get_sort_binding. symmetry.
    apply dict_get_perm; [now apply Permutation_sym |].
    rewrite K. now apply nodupb_NoDup. }
  split; [| split; [exact G |]].
  - rewrite <- K. now apply Permutation_map.
  - intros k v Gk Nd. rewrite G, Gk. simpl. now destruct v.
Qed.

Lemma nested_sort_keeps_bindings_witness :
  nodupb (keys shuffled) = true /\
  Permutation (keys (nested_sort shuffled)) (keys shuffled) /\
  (forall k, dict_get k (nested_sort shuffled)
             = option_map sort_value (dict_get k shuffled)) /\
  (forall k v, dict_get k shuffled = Some v -> is_dict v = false ->
               dict_get k (nested_sort shuffled) = Some v).
Proof.
  split; [reflexivity |].
  apply (nested_sort_keeps_bindings shuffled). reflexivity.
Defined.

(** ** What [run] writes, and when nothing is selected *)

Lemma run_passes_Forall2 d batches passes :
  run_passes d batches = OK passes ->
  Forall2 (fun b p => saveworkerfunction d b = OK p) batches passes.
Proof.
  revert passes. induction batches as [| b rest IH]; simpl; intros passes H.
  - injection H as <-. constructor.
  - apply bind_OK in H as (p & Hp & H). apply bind_OK in H as (ps & Hps & H).
    injection H as <-. constructor; auto.
Qed.

Lemma run_passes_Raise d batches e :
  run_passes d batches = Raise e ->
  exists b, In b batches /\ saveworkerfunction d b = Raise e.
Proof.
  induction batches as [| b rest IH]; simpl; intros H; [discriminate |].
  apply bind_Raise in H as [H | (p & _ & H)]; [eauto |].
  apply bind_Raise in H as [H | (ps & _ & H)]; [| discriminate].
  destruct (IH H) as (b' & HIn & Hb). eauto.
Qed.

Lemma assemble_OK headers first others contents :
  assemble headers first others = OK contents ->
  first ++ concat others <> [] /\
  contents = Header headers :: map Item (first ++ concat others).
Proof.
  unfold assemble. rewrite fold_extend.
  destruct (first ++ concat others); [discriminate |].
  intros [= <-]. split; [discriminate | reflexivity].
Qed.

(** X12.  A run that succeeds leaves in the destination exactly what the
    encoder returned for the header followed by the entries of the primary
    pass and of each further pass in order; what the destination held before
    is gone. *)
Theorem successful_save_writes_encoding :
  forall (d : defs) (headers : dict) (primary : list dict)
         (multisave : list (list dict)) (encode : list item -> result string)
         (dest dest' : file),
    run d headers primary multisave encode dest = (OK tt, dest') ->
    exists first others data,
      saveworkerfunction d primary = OK first /\
      Forall2 (fun b p => saveworkerfunction d b = OK p) multisave others /\
      first ++ concat others <> [] /\
      encode (Header headers :: map Item (first ++ concat others)) = OK data /\
      dest' = Some data.
Proof.
  intros d headers primary multisave encode dest dest'. unfold run.
  destruct (collect d headers primary multisave) as [contents | e] eqn:C;
    [| discriminate].
  destruct (encode contents) as [data | e] eqn:E; [| discriminate].
  intros [= <-]. unfold collect in C.
  apply bind_OK in C as (first & Hf & C). apply bind_OK in C as (others & Ho & C).
  apply assemble_OK in C as [NE ->].
  exists first, others, data. repeat split; auto.
  now apply run_passes_Forall2.
Qed.

Lemma successful_save_writes_encoding_witness :
  run redfish [] [bios_record] [[ethernet_record]] (fun _ => OK "encoded")
      (Some "previous save")
    = (OK tt, Some "encoded") /\
  exists first others data,
    saveworkerfunction redfish [bios_record] = OK first /\
    Forall2 (fun b p => saveworkerfunction redfish b = OK p) [[ethernet_record]] others /\
    first ++ concat others <> [] /\
    (fun _ : list item => @OK string "encoded")
      (Header [] :: map Item (first ++ concat others)) = OK data /\
    Some "encoded" = Some data.
Proof.
  split; [reflexivity |].
  apply (successful_save_writes_encoding redfish [] [bios_record] [[ethernet_record]]
           (fun _ => OK "encoded") (Some "previous save") (Some "encoded")).
  reflexivity.
Defined.

Lemma saveworkerfunction_nil d content :
  saveworkerfunction d content = OK [] -> content = [].
Proof.
  intros H. unfold saveworkerfunction in H.
  apply bind_OK in H as (contents & HL & H).
  apply process_records_length in H. simpl in H.
  assert (A : forall ident idx, index_by ident content = OK idx ->
                                length idx = length content).
  { intros ident idx Hi. apply index_by_Forall2 in Hi.
    symmetry. eapply Forall2_length; eauto. }
  assert (L : length contents = length content).
  { unfold locate_identity in HL.
    destruct (index_by (top_identity d) content) as [r | e] eqn:E1.
    - injection HL as <-. eauto.
    - destruct e; try discriminate.
      destruct (index_by (nested_identity d) content) as [r | e] eqn:E2.
      + injection HL as <-. eauto.
      + destruct e; discriminate. }
  destruct content; [reflexivity |]. simpl in *. lia.
Qed.

(** X13.  The passes and the assembly raise NothingSelectedError exactly
    when no selection returned any record: the primary batch and every
    multisave batch are empty.  The destination is then left as it was. *)
Theorem nothing_selected_iff_no_records :
  forall (d : defs) (headers : dict) (primary : list dict)
         (multisave : list (list dict)),
    (collect d headers primary multisave = Raise NothingSelectedError <->
       Forall (fun batch => batch = []) (primary :: multisave)) /\
    (Forall (fun batch => batch = []) (primary :: multisave) ->
       forall encode dest,
         run d headers primary multisave encode dest = (Raise NothingSelectedError, dest)).
Proof.
  intros d headers primary multisave.
  assert (B : Forall (fun batch : list dict => batch = []) (primary :: multisave) ->
              collect d headers primary multisave = Raise NothingSelectedError).
  { intros F. inversion F as [| x xs -> Fm]; subst.
    unfold collect. change (saveworkerfunction d []) with (@OK (list entry) []). simpl.
    assert (E : run_passes d multisave = OK (map (fun _ => []) multisave)).
    { clear F. induction Fm as [| b rest -> Fm IH]; simpl; auto.
      change (saveworkerfunction d []) with (@OK (list entry) []). simpl.
      now rewrite IH. }
    rewrite E. simpl. unfold assemble. rewrite fold_extend. simpl.
    replace (concat (map (fun _ => []) multisave)) with (@nil entry); auto.
    clear. induction multisave; simpl; auto. }
  split; [split; [| exact B] |].
  - intros H. unfold collect in H.
    apply bind_Raise in H as [H | (first & Hf & H)].
    { apply saveworkerfunction_Raise_cases in H as [[H | H] | [H | [H | H]]]; discriminate. }
    apply bind_Raise in H as [H | (others & Ho & H)].
    { apply run_passes_Raise in H as (b & _ & H).
      apply saveworkerfunction_Raise_cases in H as [[H | H] | [H | [H | H]]]; discriminate. }
    unfold assemble in H. rewrite fold_extend in H.
    destruct (first ++ concat others) eqn:E; [| discriminate].
    apply app_eq_nil in E as [-> E]. constructor.
    + eapply saveworkerfunction_nil; eauto.
    + apply run_passes_Forall2 in Ho. apply concat_nil_Forall in E.
      clear H Hf B. induction Ho as [| b p bs ps Hb Ho IH]; constructor.
      * inversion E; subst. eapply saveworkerfunction_nil; eauto.
      * apply IH. now inversion E.
  - intros F encode dest. unfold run. now rewrite (B F).
Qed.

Lemma nothing_selected_iff_no_records_witness :
  Forall (fun batch : list dict => batch = []) ([] :: [[]; []]) /\
  run redfish [] [] [[]; []] (fun _ => OK "encoded") (Some "previous save")
    = (Raise NothingSelectedError, Some "previous save").
Proof.
  assert (F : Forall (fun batch : list dict => batch = []) ([] :: [[]; []])).
  { repeat constructor. }
  split; [exact F |].
  apply (proj2 (nothing_selected_iff_no_records redfish [] [] [[]; []]) F).
Defined.

(** ** Strings: [split], [join], [remove], [strip] *)

Section StringFacts.

Variable sep : ascii.

Lemma split_not_nil s : split sep s <> [].
Proof.
  destruct s as [| c r]; simpl; [discriminate |].
  destruct (Ascii.eqb c sep); [discriminate |].
  destruct (split sep r); discriminate.
Qed.

Lemma join_cons s h t : join sep (s :: h :: t) = (s ++ String sep (join sep (h :: t)))%string.
Proof. reflexivity. Qed.

Lemma split_join s : join sep (split sep s) = s.
Proof.
  induction s as [| c r IH]; simpl; auto.
  destruct (Ascii.eqb_spec c sep) as [-> | N].
  - destruct (split sep r) as [| h t] eqn:E; [now apply split_not_nil in E |].
    rewrite join_cons, IH. reflexivity.
  - destruct (split sep r) as [| h t] eqn:E; [now apply split_not_nil in E |].
    rewrite <- IH. destruct t as [| h2 t2]; reflexivity.
Qed.

Lemma split_no_sep s : Forall (fun p => has_char sep p = false) (split sep s).
Proof.
  induction s as [| c r IH]; simpl.
  - constructor; auto.
  - destruct (Ascii.eqb c sep) eqn:E.
    + constructor; auto.
    + destruct (split sep r) as [| h t]; constructor; simpl.
      * now rewrite E.
      * constructor.
      * rewrite E. now inversion IH.
      * now inversion IH.
Qed.

Lemma split_length s : length (split sep s) = S (count_char sep s).
Proof.
  induction s as [| c r IH]; simpl; auto.
  destruct (Ascii.eqb c sep); simpl.
  - now rewrite IH.
  - destruct (split sep r) as [| h t] eqn:E; [now apply split_not_nil in E |].
    simpl in *. exact IH.
Qed.

Lemma split_no_char s : has_char sep s = false -> split sep s = [s].
Proof.
  induction s as [| c r IH]; simpl; auto.
  intros H. apply orb_false_iff in H as [E H]. rewrite E, (IH H). reflexivity.
Qed.

Lemma split_app s r :
  has_char sep s = false -> split sep (s ++ String sep r) = s :: split sep r.
Proof.
  induction s as [| c s IH]; simpl; intros H.
  - now rewrite Ascii.eqb_refl.
  - apply orb_false_iff in H as [E H]. rewrite E, (IH H). reflexivity.
Qed.

Lemma join_split l :
  l <> [] -> Forall (fun p => has_char sep p = false) l -> split sep (join sep l) = l.
Proof.
  induction l as [| s l IH]; intros NE F; [congruence |].
  inversion F as [| x xs Hs Fl]; subst.
  destruct l as [| h t].
  - simpl. now apply split_no_char.
  - rewrite join_cons, split_app by exact Hs.
    rewrite IH; [reflexivity | discriminate | exact Fl].
Qed.

Lemma has_char_split c s :
  has_char c s = false -> Forall (fun p => has_char c p = false) (split sep s).
Proof.
  induction s as [| a r IH]; simpl; intros H.
  - constructor; auto.
  - apply orb_false_iff in H as [E H]. specialize (IH H).
    destruct (Ascii.eqb a sep).
    + constructor; auto.
    + destruct (split sep r) as [| h t]; constructor; simpl.
      * now rewrite E.
      * constructor.
      * rewrite E. now inversion IH.
      * now inversion IH.
Qed.

End StringFacts.

Lemma has_char_remove c s : has_char c (remove c s) = false.
Proof.
  induction s as [| a r IH]; simpl; auto.
  destruct (Ascii.eqb a c) eqn:E; simpl; auto. now rewrite E.
Qed.

Lemma has_char_remove_other c c' s :
  has_char c s = false -> has_char c (remove c' s) = false.
Proof.
  induction s as [| a r IH]; simpl; auto.
  intros H. apply orb_false_iff in H as [E H].
  destruct (Ascii.eqb a c'); simpl; auto. now rewrite E, IH.
Qed.

Lemma count_remove_other c c' s :
  c <> c' -> count_char c (remove c' s) = count_char c s.
Proof.
  intros N. induction s as [| a r IH]; simpl; auto.
  destruct (Ascii.eqb_spec a c') as [-> | N'].
  - destruct (Ascii.eqb_spec c' c) as [E | _]; [congruence |]. now rewrite IH.
  - simpl. now rewrite IH.
Qed.

Lemma remove_none c s : has_char c s = false -> remove c s = s.
Proof.
  induction s as [| a r IH]; simpl; auto.
  intros H. apply orb_false_iff in H as [E H]. now rewrite E, IH.
Qed.

Lemma has_char_app c s r :
  has_char c (s ++ r) = has_char c s || has_char c r.
Proof.
  induction s as [| a s IH]; simpl; auto. now rewrite IH, orb_assoc.
Qed.

Lemma has_char_join c sep l :
  c <> sep -> Forall (fun p => has_char c p = false) l ->
  has_char c (join sep l) = false.
Proof.
  intros N. induction l as [| s l IH]; intros F; auto.
  inversion F as [| x xs Hs Fl]; subst.
  destruct l as [| h t]; [exact Hs |].
  rewrite join_cons, has_char_app, Hs. simpl.
  destruct (Ascii.eqb_spec sep c) as [E | _]; [congruence |]. now apply IH.
Qed.

Lemma rstrip_cons c r :
  rstrip (String c r) =
  match rstrip r with
  | EmptyString => if isspace c then EmptyString else String c EmptyString
  | String a x => String c (String a x)
  end.
Proof. reflexivity. Qed.

Lemma rstrip_idem s : rstrip (rstrip s) = rstrip s.
Proof.
  induction s as [| c r IH]; [reflexivity |].
  rewrite (rstrip_cons c r).
  destruct (rstrip r) as [| a r'] eqn:E.
  - destruct (isspace c) eqn:S; [reflexivity |].
    rewrite rstrip_cons. simpl. now rewrite S.
  - rewrite rstrip_cons, IH. reflexivity.
Qed.

Lemma lstrip_head s :
  lstrip s = EmptyString \/ exists c r, lstrip s = String c r /\ isspace c = false.
Proof.
  induction s as [| c r IH]; simpl; auto.
  destruct (isspace c) eqn:S; auto. right. eauto.
Qed.

Lemma rstrip_head c r :
  isspace c = false -> exists r', rstrip (String c r) = String c r'.
Proof.
  intros S. rewrite rstrip_cons. destruct (rstrip r); [rewrite S |]; eauto.
Qed.

Lemma strip_stripped s :
  lstrip (strip s) = strip s /\ rstrip (strip s) = strip s.
Proof.
  unfold strip. split; [| apply rstrip_idem].
  destruct (lstrip_head s) as [-> | (c & r & -> & S)]; auto.
  destruct (rstrip_head c r S) as (r' & ->). simpl. now rewrite S.
Qed.

Lemma strip_idem s : strip (strip s) = strip s.
Proof.
  destruct (strip_stripped s) as [L R]. unfold strip at 1. now rewrite L, R.
Qed.

Lemma last_char_snoc s q : last_char (s ++ String q EmptyString) = Some q.
Proof.
  induction s as [| c r IH]; simpl; auto.
  destruct (r ++ String q EmptyString)%string eqn:E; auto.
  destruct r; discriminate.
Qed.

Lemma chop_snoc s q : chop (s ++ String q EmptyString) = s.
Proof.
  induction s as [| c r IH]; simpl; auto.
  destruct (r ++ String q EmptyString)%string eqn:E.
  - destruct r; discriminate.
  - now rewrite IH.
Qed.

Lemma unquote_quoted q s :
  q = squote \/ q = dquote ->
  unquote (String q (s ++ String q EmptyString)) = s.
Proof.
  intros Hq. unfold unquote.
  assert (L : last_char (String q (s ++ String q EmptyString)) = Some q).
  { change (String q (s ++ String q EmptyString))
      with ((String q s) ++ String q EmptyString)%string.
    apply last_char_snoc. }
  rewrite L, Ascii.eqb_refl. simpl.
  replace (Ascii.eqb q squote || Ascii.eqb q dquote) with true.
  - apply chop_snoc.
  - destruct Hq as [-> | ->]; reflexivity.
Qed.

Lemma unquote_plain s : starts_with_quote s = false -> unquote s = s.
Proof.
  destruct s as [| c r]; simpl; auto. intros ->. now rewrite andb_false_r.
Qed.

(** ** The filter option *)

Lemma split_two sep s a b :
  split sep s = [a; b] ->
  s = (a ++ String sep b)%string /\ has_char sep a = false /\ has_char sep b = false.
Proof.
  intros E. pose proof (split_join sep s) as J. pose proof (split_no_sep sep s) as F.
  rewrite E in J, F. simpl in J.
  inversion F as [| x xs Ha F']; subst. inversion F' as [| y ys Hb _]; subst. auto.
Qed.

(** X14.  A non-empty filter is accepted exactly when it holds one equals
    sign, once a pair of matching quotes around it is taken off; every other
    filter raises InvalidCommandLineError.  The pair handed on is the text
    before and after the equals sign, each stripped of surrounding
    whitespace. *)
Theorem filter_needs_one_equals_sign :
  forall (f : string),
    f <> EmptyString ->
    (count_char equals (unquote f) = 1 ->
       exists a b,
         unquote f = (a ++ String equals b)%string /\
         has_char equals a = false /\ has_char equals b = false /\
         parse_filter (Some f) = Accepted (Some (strip a, strip b)) /\
         strip (strip a) = strip a /\ strip (strip b) = strip b) /\
    (count_char equals (unquote f) <> 1 ->
       parse_filter (Some f) = InvalidCommandLineError filter_message).
Proof.
  intros f NE.
  pose proof (split_length equals (unquote f)) as L.
  assert (P : parse_filter (Some f) =
              match split equals (unquote f) with
              | [sel; val] => Accepted (Some (strip sel, strip val))
              | _ => InvalidCommandLineError filter_message
              end).
  { destruct f; [congruence | reflexivity]. }
  split.
  - intros C. rewrite C in L.
    destruct (split equals (unquote f)) as [| a [| b [| c t]]] eqn:E; try discriminate.
    destruct (split_two _ _ _ _ E) as (U & Ha & Hb).
    exists a, b. repeat split; auto using strip_idem.
  - intros C. rewrite P.
    destruct (split equals (unquote f)) as [| a [| b [| c t]]] eqn:E; auto.
    simpl in L. congruence.
Qed.

Lemma filter_needs_one_equals_sign_witness :
  "'Name = eth0'" <> EmptyString /\
  (count_char equals (unquote "'Name = eth0'") = 1 ->
     exists a b,
       unquote "'Name = eth0'" = (a ++ String equals b)%string /\
       has_char equals a = false /\ has_char equals b = false /\
       parse_filter (Some "'Name = eth0'") = Accepted (Some (strip a, strip b)) /\
       strip (strip a) = strip a /\ strip (strip b) = strip b) /\
  parse_filter (Some "'Name = eth0'") = Accepted (Some ("Name", "eth0")) /\
  parse_filter (Some "Name") = InvalidCommandLineError filter_message.
Proof.
  split; [discriminate |]. split; [| split; [reflexivity |]].
  - apply (proj1 (filter_needs_one_equals_sign "'Name = eth0'" ltac:(discriminate))).
  - apply (proj2 (filter_needs_one_equals_sign "Name" ltac:(discriminate))).
    discriminate.
Defined.

(** X15.  An attribute and a value that hold no equals sign and no
    surrounding whitespace, the attribute not starting with a quote, come
    back as they are from [attribute=value], and from the same text put
    between two single or two double quotes. *)
Theorem filter_round_trip :
  forall (a b : string),
    has_char equals a = false ->
    has_char equals b = false ->
    strip a = a -> strip b = b ->
    starts_with_quote a = false ->
    parse_filter (Some (a ++ String equals b)%string) = Accepted (Some (a, b)) /\
    forall q, q = squote \/ q = dquote ->
      parse_filter (Some (String q ((a ++ String equals b) ++ String q EmptyString)%string))
      = Accepted (Some (a, b)).
Proof.
  intros a b Ha Hb Sa Sb Q.
  assert (E : split equals (a ++ String equals b)%string = [a; b]).
  { rewrite split_app by exact Ha. now rewrite split_no_char. }
  split.
  - assert (U : unquote (a ++ String equals b)%string = (a ++ String equals b)%string).
    { apply unquote_plain. destruct a; [reflexivity | exact Q]. }
    assert (P : parse_filter (Some (a ++ String equals b)%string) =
                match split equals (unquote (a ++ String equals b)%string) with
                | [sel; val] => Accepted (Some (strip sel, strip val))
                | _ => InvalidCommandLineError filter_message
                end).
    { destruct a; reflexivity. }
    rewrite P, U, E, Sa, Sb. reflexivity.
  - intros q Hq. unfold parse_filter.
    rewrite (unquote_quoted q _ Hq), E, Sa, Sb. reflexivity.
Qed.

Lemma filter_round_trip_witness :
  has_char equals "Name" = false /\ has_char equals "eth 0" = false /\
  strip "Name" = "Name" /\ strip "eth 0" = "eth 0" /\
  starts_with_quote "Name" = false /\
  parse_filter (Some "Name=eth 0") = Accepted (Some ("Name", "eth 0")) /\
  forall q, q = squote \/ q = dquote ->
    parse_filter (Some (String q (("Name" ++ String equals "eth 0") ++ String q EmptyString)%string))
    = Accepted (Some ("Name", "eth 0")).
Proof.
  do 5 (split; [reflexivity |]).
  apply (filter_round_trip "Name" "eth 0"); reflexivity.
Defined.

(** ** The multisave option and the file name *)

Lemma cleaned_is_clean m :
  Forall (fun n => clean_name n = true)
    (split comma (remove space (remove squote (remove dquote m)))).
Proof.
  set (c := remove space (remove squote (remove dquote m))).
  assert (Hs : has_char space c = false) by apply has_char_remove.
  assert (Hq : has_char squote c = false).
  { apply has_char_remove_other, has_char_remove. }
  assert (Hd : has_char dquote c = false).
  { apply has_char_remove_other, has_char_remove_other, has_char_remove. }
  pose proof (split_no_sep comma c) as F0.
  pose proof (has_char_split comma space c Hs) as F1.
  pose proof (has_char_split comma squote c Hq) as F2.
  pose proof (has_char_split comma dquote c Hd) as F3.
  rewrite Forall_forall in *. intros n Hn. unfold clean_name.
  now rewrite (F0 n Hn), (F1 n Hn), (F2 n Hn), (F3 n Hn).
Qed.

(** X16.  The multisave option is never rejected: its check on the number
    of types cannot fail.  A non-empty option always gives a selector, one
    type more than it has commas, and names without comma, space or quote; an
    empty one leaves the selector as it was. *)
Theorem multisave_is_never_rejected :
  forall (multisave : string) (selector : option string),
    exists sel rest,
      select_types multisave selector = Accepted (sel, rest) /\
      (multisave = EmptyString -> sel = selector /\ rest = []) /\
      (multisave <> EmptyString ->
         exists first, sel = Some first /\
           length (first :: rest) = S (count_char comma multisave) /\
           Forall (fun n => clean_name n = true) (first :: rest)).
Proof.
  intros m selector.
  destruct m as [| c r] eqn:Em.
  - exists selector, []. repeat split; auto. congruence.
  - rewrite <- Em. 
    assert (P : select_types m selector =
                match split comma (remove space (remove squote (remove dquote m))) with
                | [] => InvalidCommandLineError "Invalid number of types in multisave option."
                | first :: rest => Accepted (Some first, rest)
                end) by (subst m; reflexivity).
    pose proof (cleaned_is_clean m) as C.
    pose proof (split_length comma (remove space (remove squote (remove dquote m)))) as L.
    rewrite !count_remove_other in L by discriminate.
    destruct (split comma (remove space (remove squote (remove dquote m))))
      as [| first rest]; [discriminate |].
    exists (Some first), rest. split; [exact P |]. split; [subst m; discriminate |].
    intros _. exists first. auto.
Qed.

Lemma multisave_is_never_rejected_witness :
  exists sel rest,
    select_types "a,,b," None = Accepted (sel, rest) /\
    ("a,,b," = EmptyString -> sel = None /\ rest = []) /\
    ("a,,b," <> EmptyString ->
       exists first, sel = Some first /\
         length (first :: rest) = S (count_char comma "a,,b,") /\
         Forall (fun n => clean_name n = true) (first :: rest)).
Proof.
  apply (multisave_is_never_rejected "a,,b," None).
Defined.

(** X17.  Type names without comma, space or quote come back from the
    option that lists them with commas, also when the option has spaces or
    quotes added: the first is the selector, the others follow in order. *)
Theorem multisave_round_trip :
  forall (multisave : string) (selector : option string)
         (first : string) (rest : list string),
    multisave <> EmptyString ->
    Forall (fun n => clean_name n = true) (first :: rest) ->
    remove space (remove squote (remove dquote multisave)) = join comma (first :: rest) ->
    select_types multisave selector = Accepted (Some first, rest).
Proof.
  intros m selector first rest NE F E.
  assert (P : select_types m selector =
              match split comma (remove space (remove squote (remove dquote m))) with
              | [] => InvalidCommandLineError "Invalid number of types in multisave option."
              | first :: rest => Accepted (Some first, rest)
              end) by (destruct m; [congruence | reflexivity]).
  rewrite P, E, join_split; [reflexivity | discriminate |].
  eapply Forall_impl; [| exact F]. intros n Hn. unfold clean_name in Hn.
  apply negb_true_iff in Hn. apply orb_false_iff in Hn as [Hn _].
  apply orb_false_iff in Hn as [Hn _]. apply orb_false_iff in Hn as [Hn _]. exact Hn.
Qed.

Lemma multisave_round_trip_witness :
  "Bios., 'ComputerSystem.'" <> EmptyString /\
  Forall (fun n => clean_name n = true) ["Bios."; "ComputerSystem."] /\
  select_types "Bios., 'ComputerSystem.'" None = Accepted (Some "Bios.", ["ComputerSystem."]).
Proof.
  assert (F : Forall (fun n => clean_name n = true) ["Bios."; "ComputerSystem."]).
  { repeat constructor. }
  split; [discriminate |]. split; [exact F |].
  apply (multisave_round_trip "Bios., 'ComputerSystem.'" None "Bios." ["ComputerSystem."]);
    [discriminate | exact F | reflexivity].
Defined.

(** X18.  The file name chosen is never empty.  Two or more -f values are
    the only rejection.  A single non-empty -f value is taken; without -f
    the non-empty name of the configuration is; in every other case, an empty
    -f value included, the name is [ilorest.json]. *)
Theorem filename_is_never_empty :
  forall (filename : option (list string)) (defaultsavefilename : option string),
    ((exists message, choose_filename filename defaultsavefilename
                      = InvalidCommandLineError message) <->
     (exists l, filename = Some l /\ 2 <= length l)) /\
    (forall name,
       choose_filename filename defaultsavefilename = Accepted name ->
       name <> EmptyString /\
       (filename = Some [name] \/
        ((filename = None \/ filename = Some []) /\ defaultsavefilename = Some name) \/
        (name = __filename__ /\ filename <> Some [name] /\
         (filename = Some [EmptyString] \/
          ((filename = None \/ filename = Some []) /\
           (defaultsavefilename = None \/ defaultsavefilename = Some EmptyString)))))).
Proof.
  intros filename dflt. split.
  - split.
    + intros (msg & H). destruct filename as [[| f [| g l]] |]; simpl in H;
        try discriminate. exists (f :: g :: l). split; auto. simpl. lia.
    + intros (l & -> & Hl). destruct l as [| f [| g l]]; simpl in Hl; try lia.
      simpl. eauto.
  - intros name H.
    destruct filename as [[| f [| g l]] |]; simpl in H; try discriminate.
    + destruct dflt as [[| c r] |]; injection H as <-;
        (split; [discriminate |]); [right; right | right; left | right; right];
        repeat split; auto; discriminate.
    + destruct f as [| c r]; injection H as <-; (split; [discriminate |]);
        [right; right | left]; repeat split; auto; discriminate.
    + destruct dflt as [[| c r] |]; injection H as <-;
        (split; [discriminate |]); [right; right | right; left | right; right];
        repeat split; auto; discriminate.
Qed.

Lemma filename_is_never_empty_witness :
  choose_filename (Some [EmptyString]) (Some "configured.json") = Accepted __filename__ /\
  __filename__ <> EmptyString.
Proof.
  split; [reflexivity |].
  apply (proj2 (filename_is_never_empty (Some [EmptyString]) (Some "configured.json"))
           __filename__ eq_refl).
Defined.
